(** * tiedot query processor: a shallow embedding and its properties

    The query processor of tiedot ([EvalQuery] and the operators it
    dispatches to: [EvalUnion], [EvalAllIDs], [Lookup], [PathExistence],
    [Intersect], [Complement], [IntRange]) is embedded as Rocq functions over
    an explicit result set.  The Go functions mutate [*result] and return an
    [error]; here every operator takes the result set and returns an
    [outcome] carrying the result set as the call leaves it together with
    the returned error, or the fact that the call does not return.

    Locks ([ht.Lock.RLock], [RUnlock]) and the log line of [IntRange]
    ([tdlog.CritNoRepeat]) touch neither the result set nor the returned
    error and are left out of the single-threaded model. *)

From Stdlib Require Import ZArith String Ascii List Lia.
From Stdlib Require Import Floats.SpecFloat.
From stdpp Require Import base decidable option list list_numbers gmap sets fin_sets strings pretty.

Set Warnings "-register-all,-clear-no-such-hyp".

Local Open Scope string_scope.
Local Open Scope Z_scope.

(** ** Go values *)

(** A [float64] is a sign, a mantissa and a binary exponent (or a zero, an
    infinity, a NaN), as in the IEEE 754 specification of the Standard
    Library. *)
Definition float64 : Type := spec_float.

(** The dynamic values behind Go's [interface{}] that reach the query
    processor.  [encoding/json] produces [nil], [bool], [float64],
    [string], [[]interface{}] and [map[string]interface{}]; [VInt] is a Go
    [int], which a caller building a query or a document in Go can pass.
    A [map[string]interface{}] is an association list read by [mapGet]:
    the first binding of a key is the map's entry. *)
Inductive value : Type :=
  | VNil
  | VBool (b : bool)
  | VFloat (f : float64)
  | VInt (i : Z)
  | VStr (s : string)
  | VArr (l : list value)
  | VObj (m : list (string * value)).

Definition object : Type := list (string * value).

(** [expr[k]] with its presence flag. *)
Fixpoint mapGet (m : object) (k : string) : option value :=
  match m with
  | [] => None
  | (k', v) :: m' => if decide (k' = k) then Some v else mapGet m' k
  end.

(** Nesting depth of a value, the measure of [EvalQuery]'s recursion. *)
Fixpoint depth (v : value) : nat :=
  match v with
  | VArr l => S (list_max (List.map depth l))
  | VObj m => S (list_max (List.map (fun kv => let '(_, x) := kv in depth x) m))
  | _ => O
  end.

(** ** Machine integers *)

(** Go's [int] on the 64-bit platforms tiedot targets. *)
Definition min_int : Z := - 2 ^ 63.
Definition max_int : Z := 2 ^ 63 - 1.

(** Two's complement wrap-around of [int] arithmetic. *)
Definition wrap (z : Z) : Z := (z + 2 ^ 63) mod 2 ^ 64 - 2 ^ 63.

Definition in_int (z : Z) : Prop := min_int <= z <= max_int.

(** The real number a finite [float64] denotes, rounded toward zero to an
    integer; [Z.quot] is the quotient that rounds toward zero. *)
Definition truncate (f : float64) : option Z :=
  match f with
  | S754_zero _ => Some 0
  | S754_finite s m e =>
      let mag := if 0 <=? e then Z.pos m * 2 ^ e else Z.quot (Z.pos m) (2 ^ (- e)) in
      Some (if s then - mag else mag)
  | S754_infinity _ => None
  | S754_nan => None
  end.

(** ** strconv.ParseInt(s, 10, 64) *)

Definition digit_of (c : ascii) : option Z :=
  let n := Z.of_N (N_of_ascii c) in
  if (48 <=? n) && (n <=? 57) then Some (n - 48) else None.

(** The digits of [ParseUint] in base 10: every byte must be a decimal
    digit and there must be at least one ([None] is the syntax error).  The
    value is accumulated without a bound; [ParseInt] below applies the
    range check. *)
Fixpoint parse_digits (s : string) (acc : Z) : option Z :=
  match s with
  | EmptyString => Some acc
  | String c s' =>
      match digit_of c with
      | Some d => parse_digits s' (10 * acc + d)
      | None => None
      end
  end.

Definition ParseUint (s : string) : option Z :=
  match s with
  | EmptyString => None
  | _ => parse_digits s 0
  end.

(** [ParseInt] picks off one leading ['+'] or ['-'], converts the rest
    with [ParseUint] and fails with a range error unless the signed value
    fits 64 bits.  [None] stands for a non-nil [err] (syntax or range). *)
Definition ParseInt (s : string) : option Z :=
  match s with
  | EmptyString => None
  | String c rest =>
      let neg := bool_decide (c = "-"%char) in
      let body := if bool_decide (c = "+"%char) || neg then rest else s in
      match ParseUint body with
      | None => None
      | Some un =>
          if negb neg && (2 ^ 63 <=? un) then None
          else if neg && (2 ^ 63 <? un) then None
          else Some (if neg then - un else un)
      end
  end.

(** The pattern [^-?\d+$] with which the specification describes document
    identifier strings: an optional ['-'] and one or more decimal digits. *)
Fixpoint all_digits (s : string) : bool :=
  match s with
  | EmptyString => true
  | String c s' => match digit_of c with Some _ => all_digits s' | None => false end
  end.

Definition nonempty_digits (s : string) : bool :=
  match s with
  | EmptyString => false
  | _ => all_digits s
  end.

Definition matches_docid_pattern (s : string) : bool :=
  match s with
  | String c rest => if bool_decide (c = "-"%char) then nonempty_digits rest else nonempty_digits s
  | EmptyString => false
  end.

(** ** What the query processor takes from outside this file *)

(** The parts of the Go runtime and of package [db] that the query
    processor calls and that are declared elsewhere. *)
Class GoEnv : Type := {
  (** [fmt.Sprint] of a [float64] ([%v], the shortest [%g] form). *)
  FormatFloat : float64 -> string;
  (** [fmt.Sprint] of a [map[string]interface{}]. *)
  FormatMap : object -> string;
  (** [int(f)] where the truncated [f] does not fit [int] (or [f] is an
      infinity or a NaN): Go leaves the result to the implementation. *)
  ConvertOverflow : float64 -> Z;
  (** [db.StrHash], the string hash of the index build. *)
  StrHash : string -> Z;
  (** [db.INDEX_PATH_SEP], the separator of joined index paths. *)
  INDEX_PATH_SEP : string;
  (** [db.GetIn], the path resolver. *)
  GetIn : value -> list string -> list value
}.

(** ** Errors and outcomes *)

(** One constructor per error message of the source, with the operands
    the message prints. *)
Inductive error : Type :=
  | ErrMissingLookupPath                       (* Lookup: Missing lookup path `in` *)
  | ErrLookupPathNotVector (path : value)      (* Lookup: Expecting vector lookup path `in` *)
  | ErrLimitNotNumber (limit : value)          (* Expecting `limit` as a number *)
  | ErrUnindexed (scanPath : string) (expr : object)        (* Lookup: Please index ... *)
  | ErrPathNotVector (hasPath : value)         (* PathExistence: Expecting vector path *)
  | ErrUnindexedVec (vecPath : list string) (expr : object) (* PathExistence, IntRange: Please index ... *)
  | ErrSubQueries (subExprs : value)           (* Expecting a vector of sub-queries *)
  | ErrMissingPath                             (* IntRange: Missing path `in` *)
  | ErrRangePathNotVector (path : value)       (* IntRange: Expecting vector path `in` *)
  | ErrFromNotInteger                          (* Expecting `int-from` as an integer *)
  | ErrToNotInteger                            (* Expecting `int-to` as an integer *)
  | ErrMissingIntTo                            (* Missing `int-to` *)
  | ErrNotDocID (expr : string)                (* ... is not a document PK ID *)
  | ErrNoOperation (expr : object).            (* ... does not contain any operation *)

(** The two error kinds of the specification. *)
Inductive error_kind : Type := InvalidQuery | UnindexedPath.

Definition kind_of (e : error) : error_kind :=
  match e with
  | ErrUnindexed _ _ | ErrUnindexedVec _ _ => UnindexedPath
  | _ => InvalidQuery
  end.

(** How a call ends.  [Returned result err]: the call returns [err] and
    leaves [result] in the caller's set.  [Aborted]: the call does not
    return to its caller, through a run-time panic (integer division by
    zero, index out of range, nil dereference) or a loop that never exits.
    [OutOfFuel] belongs to the model only: the recursion bound of
    [evalQuery] was too small (it never is for [EvalQuery]). *)
Inductive outcome : Type :=
  | Returned (result : gset Z) (err : option error)
  | Aborted
  | OutOfFuel.

(** ** The collection *)

(** A hash table as the query processor uses it: [ht.Get(key, limit)] and
    the identifiers of [ht.GetPartition(partNum, totalPart)]. *)
Record HashTable : Type := {
  Get : Z -> Z -> list Z;
  GetPartition : Z -> Z -> list Z
}.

(** The fields and methods of [*Col] the query processor reads:
    [indexPaths], [db.numParts], [hts] (one map from joined path to hash
    table per partition), the documents behind [Read] and [ForEachDoc],
    and [ApproxDocCount()]. *)
Record Col : Type := {
  indexPaths : gset string;
  numParts : Z;
  hts : list (gmap string HashTable);
  docs : gmap Z value;
  ApproxDocCount : Z
}.

(** [col.Read(id)]: [None] is a non-nil error. *)
Definition Read (src : Col) (id : Z) : option value := docs src !! id.

(** [src.hts[num][path]] followed by the first use of the table: an index
    outside the slice panics, and so does the nil table of a missing map
    entry on [ht.Lock.RLock()].  [None] is the panic. *)
Definition tableAt (src : Col) (num : Z) (path : string) : option HashTable :=
  if num <? 0 then None
  else match hts src !! Z.to_nat num with
       | Some part => part !! path
       | None => None
       end.

Definition evaluator : Type := value -> Col -> gset Z -> outcome.

Section QueryProcessor.
Context `{env : GoEnv}.

(** [int(f)] for a [float64]: truncation toward zero when the result
    fits [int]. *)
Definition int_of_float64 (f : float64) : Z :=
  match truncate f with
  | Some z => if (min_int <=? z) && (z <=? max_int) then z else wrap (ConvertOverflow f)
  | None => wrap (ConvertOverflow f)
  end.

(** [fmt.Sprint(v)] of one operand. *)
Fixpoint Sprint (v : value) : string :=
  match v with
  | VNil => "<nil>"
  | VBool b => if b then "true" else "false"
  | VFloat f => FormatFloat f
  | VInt i => pretty i
  | VStr s => s
  | VArr l => "[" ++ String.concat " " (List.map Sprint l) ++ "]"
  | VObj m => FormatMap m
  end.

(** Calculate union of sub-query results. *)
Fixpoint EvalUnion (EvalQuery : evaluator) (exprs : list value) (src : Col)
    (result : gset Z) : outcome :=
  match exprs with
  | [] => Returned result None
  | subExpr :: rest =>
      match EvalQuery subExpr src result with
      | Returned result' None => EvalUnion EvalQuery rest src result'
      | other => other
      end
  end.

(** Put all document IDs into result. *)
Definition EvalAllIDs (src : Col) (result : gset Z) : outcome :=
  Returned (map_fold (fun id _ acc => {[ id ]} ∪ acc) result (docs src)) None.

(** The inner loop of [Lookup] for one candidate: the document is read
    and, for every resolved value with the looked-up string form, the
    candidate enters the result. *)
Definition verifyMatch (src : Col) (vecPath : list string) (lookupStrValue : string)
    (result : gset Z) (match_ : Z) : gset Z :=
  match Read src match_ with
  | Some doc =>
      foldl (fun acc v => if decide (Sprint v = lookupStrValue) then {[ match_ ]} ∪ acc else acc)
            result (GetIn doc vecPath)
  | None => result
  end.

(** [Lookup] from the hash of the lookup value on: index check, probe
    of the partition [hash % numParts], filter of the candidates. *)
Definition LookupScan (expr : object) (src : Col) (vecPath : list string) (intLimit : Z)
    (lookupStrValue : string) (result : gset Z) : outcome :=
  let lookupValueHash := StrHash lookupStrValue in
  let scanPath := String.concat INDEX_PATH_SEP vecPath in
  if decide (scanPath ∈ indexPaths src) then
    if decide (numParts src = 0) then Aborted
    else
      let num := Z.rem lookupValueHash (numParts src) in
      match tableAt src num scanPath with
      | None => Aborted
      | Some ht =>
          let vals := Get ht lookupValueHash intLimit in
          Returned (foldl (verifyMatch src vecPath lookupStrValue) result vals) None
      end
  else Returned result (Some (ErrUnindexed scanPath expr)).

(** Value equity check ("attribute == value") using hash lookup. *)
Definition Lookup (lookupValue : value) (expr : object) (src : Col) (result : gset Z)
    : outcome :=
  match mapGet expr "in" with
  | None => Returned result (Some ErrMissingLookupPath)
  | Some (VArr vecPathInterface) =>
      let vecPath := List.map Sprint vecPathInterface in
      match mapGet expr "limit" with
      | None => LookupScan expr src vecPath 0 (Sprint lookupValue) result
      | Some (VFloat floatLimit) =>
          LookupScan expr src vecPath (int_of_float64 floatLimit) (Sprint lookupValue) result
      | Some limit => Returned result (Some (ErrLimitNotNumber limit))
      end
  | Some path => Returned result (Some (ErrLookupPathNotVector path))
  end.

(** The innermost loop of [PathExistence]: every identifier enters the
    result and is counted; the scan stops on the identifier that brings
    the counter to the limit. *)
Inductive scan : Type :=
  | Continue (counter : Z) (result : gset Z)
  | LimitReached (result : gset Z).

Fixpoint scanIDs (intLimit : Z) (ids : list Z) (counter : Z) (result : gset Z) : scan :=
  match ids with
  | [] => Continue counter result
  | id :: ids' =>
      let result' := {[ id ]} ∪ result in
      let counter' := wrap (counter + 1) in
      if decide (counter' = intLimit) then LimitReached result'
      else scanIDs intLimit ids' counter' result'
  end.

(** [for i := 0; i < partDiv; i++] over one hash table. *)
Fixpoint scanChunks (ht : HashTable) (intLimit partDiv : Z) (chunks : list Z)
    (counter : Z) (result : gset Z) : scan :=
  match chunks with
  | [] => Continue counter result
  | i :: chunks' =>
      match scanIDs intLimit (GetPartition ht i partDiv) counter result with
      | Continue counter' result' => scanChunks ht intLimit partDiv chunks' counter' result'
      | LimitReached result' => LimitReached result'
      end
  end.

(** [for iteratePart := 0; iteratePart < src.db.numParts; iteratePart++]. *)
Fixpoint scanParts (src : Col) (jointPath : string) (intLimit partDiv : Z)
    (parts : list Z) (counter : Z) (result : gset Z) : outcome :=
  match parts with
  | [] => Returned result None
  | iteratePart :: parts' =>
      match tableAt src iteratePart jointPath with
      | None => Aborted
      | Some ht =>
          match scanChunks ht intLimit partDiv (seqZ 0 partDiv) counter result with
          | Continue counter' result' =>
              scanParts src jointPath intLimit partDiv parts' counter' result'
          | LimitReached result' => Returned result' None
          end
      end
  end.

(** [PathExistence] from the joined path on. *)
Definition ExistenceScan (expr : object) (src : Col) (vecPath : list string) (intLimit : Z)
    (result : gset Z) : outcome :=
  let jointPath := String.concat INDEX_PATH_SEP vecPath in
  if decide (jointPath ∈ indexPaths src) then
    if decide (numParts src = 0) then Aborted
    else
      let partDiv := Z.quot (Z.quot (ApproxDocCount src) (numParts src)) 4000 in
      let partDiv := if decide (partDiv = 0) then partDiv + 1 else partDiv in
      scanParts src jointPath intLimit partDiv (seqZ 0 (numParts src)) 0 result
  else Returned result (Some (ErrUnindexedVec vecPath expr)).

(** Value existence check (value != nil) using hash lookup. *)
Definition PathExistence (hasPath : value) (expr : object) (src : Col) (result : gset Z)
    : outcome :=
  match hasPath with
  | VArr vecPathInterface =>
      let vecPath := List.map Sprint vecPathInterface in
      match mapGet expr "limit" with
      | None => ExistenceScan expr src vecPath 0 result
      | Some (VFloat floatLimit) =>
          ExistenceScan expr src vecPath (int_of_float64 floatLimit) result
      | Some limit => Returned result (Some (ErrLimitNotNumber limit))
      end
  | _ => Returned result (Some (ErrPathNotVector hasPath))
  end.

(** The keys of [subResult] that are in [result], collected into a new
    map as the inner loop of [Intersect] does. *)
Definition intersectionOf (subResult result : gset Z) : gset Z :=
  set_fold (fun k acc => if decide (k ∈ result) then {[ k ]} ∪ acc else acc) ∅ subResult.

Fixpoint IntersectLoop (EvalQuery : evaluator) (subExprVecs : list value) (src : Col)
    (first : bool) (result : gset Z) : outcome :=
  match subExprVecs with
  | [] => Returned result None
  | subExpr :: rest =>
      match EvalQuery subExpr src ∅ with
      | Returned subResult None =>
          if first then IntersectLoop EvalQuery rest src false subResult
          else IntersectLoop EvalQuery rest src false (intersectionOf subResult result)
      | Returned _ (Some err) => Returned result (Some err)
      | Aborted => Aborted
      | OutOfFuel => OutOfFuel
      end
  end.

(** Calculate intersection of sub-query results. *)
Definition Intersect (EvalQuery : evaluator) (subExprs : value) (src : Col)
    (result : gset Z) : outcome :=
  match subExprs with
  | VArr subExprVecs => IntersectLoop EvalQuery subExprVecs src true result
  | _ => Returned result (Some (ErrSubQueries subExprs))
  end.

(** The two inner loops of [Complement]: the keys of [subResult] not in
    [result], then the keys of [result] not in [subResult], collected
    into one new map. *)
Definition complementOf (subResult result : gset Z) : gset Z :=
  let complement :=
    set_fold (fun k acc => if decide (k ∈ result) then acc else {[ k ]} ∪ acc) ∅ subResult in
  set_fold (fun k acc => if decide (k ∈ subResult) then acc else {[ k ]} ∪ acc)
           complement result.

Fixpoint ComplementLoop (EvalQuery : evaluator) (subExprVecs : list value) (src : Col)
    (result : gset Z) : outcome :=
  match subExprVecs with
  | [] => Returned result None
  | subExpr :: rest =>
      match EvalQuery subExpr src ∅ with
      | Returned subResult None =>
          ComplementLoop EvalQuery rest src (complementOf subResult result)
      | Returned _ (Some err) => Returned result (Some err)
      | Aborted => Aborted
      | OutOfFuel => OutOfFuel
      end
  end.

(** Calculate complement of sub-query results. *)
Definition Complement (EvalQuery : evaluator) (subExprs : value) (src : Col)
    (result : gset Z) : outcome :=
  match subExprs with
  | VArr subExprVecs => ComplementLoop EvalQuery subExprVecs src result
  | _ => Returned result (Some (ErrSubQueries subExprs))
  end.

(** [col.hashScan(idxName, key, limit)]; [None] is a panic. *)
Definition hashScan (col : Col) (idxName : string) (key limit : Z) : option (list Z) :=
  if decide (numParts col = 0) then None
  else match tableAt col (Z.rem key (numParts col)) idxName with
       | Some ht => Some (Get ht key limit)
       | None => None
       end.

(** The innermost loop of [IntRange]: identifiers enter the result and
    are counted until the counter has reached a positive limit
    ([break]). *)
Fixpoint collectIDs (intLimit : Z) (vals : list Z) (counter : Z) (result : gset Z)
    : Z * gset Z :=
  match vals with
  | [] => (counter, result)
  | docID :: vals' =>
      if (0 <? intLimit) && (counter =? intLimit) then (counter, result)
      else collectIDs intLimit vals' (wrap (counter + 1)) ({[ docID ]} ∪ result)
  end.

(** The body shared by the forward and the backward scan, over the
    lookup values in the order the loop visits them; [None] is a panic
    of [hashScan]. *)
Fixpoint rangeLoop (src : Col) (htPath : string) (intLimit : Z) (lookupValues : list Z)
    (counter : Z) (result : gset Z) : option (Z * gset Z) :=
  match lookupValues with
  | [] => Some (counter, result)
  | lookupValue :: rest =>
      let lookupStrValue := Sprint (VInt lookupValue) in
      let hashValue := StrHash lookupStrValue in
      match hashScan src htPath hashValue intLimit with
      | None => None
      | Some vals =>
          let '(counter', result') := collectIDs intLimit vals counter result in
          rangeLoop src htPath intLimit rest counter' result'
      end
  end.

(** [for lookupValue := from; lookupValue <= to; lookupValue++]. *)
Definition forwardValues (from to : Z) : list Z := seqZ from (to - from + 1).

(** [for lookupValue := from; lookupValue >= to; lookupValue--]. *)
Definition backwardValues (from to : Z) : list Z :=
  List.map (fun i => from - i) (seqZ 0 (from - to + 1)).

(** [IntRange] from the index check on.  A forward scan up to the
    largest [int] and a backward scan down to the smallest one never
    leave their loop, the loop variable wrapping around. *)
Definition RangeScan (expr : object) (src : Col) (vecPath : list string)
    (intLimit from to : Z) (result : gset Z) : outcome :=
  let htPath := String.concat "," vecPath in
  if decide (htPath ∈ indexPaths src) then
    if decide (from < to) then
      if decide (to = max_int) then Aborted
      else match rangeLoop src htPath intLimit (forwardValues from to) 0 result with
           | Some (_, result') => Returned result' None
           | None => Aborted
           end
    else
      if decide (to = min_int) then Aborted
      else match rangeLoop src htPath intLimit (backwardValues from to) 0 result with
           | Some (_, result') => Returned result' None
           | None => Aborted
           end
  else Returned result (Some (ErrUnindexedVec vecPath expr)).

(** [IntRange] from the range bounds on. *)
Definition RangeBounds (intFrom : value) (expr : object) (src : Col)
    (vecPath : list string) (intLimit : Z) (result : gset Z) : outcome :=
  match intFrom with
  | VFloat floatFrom =>
      let from := int_of_float64 floatFrom in
      match mapGet expr "int-to" with
      | Some (VFloat floatTo) =>
          RangeScan expr src vecPath intLimit from (int_of_float64 floatTo) result
      | Some _ => Returned result (Some ErrToNotInteger)
      | None =>
          match mapGet expr "int to" with
          | Some (VFloat floatTo) =>
              RangeScan expr src vecPath intLimit from (int_of_float64 floatTo) result
          | Some _ => Returned result (Some ErrToNotInteger)
          | None => Returned result (Some ErrMissingIntTo)
          end
      end
  | _ => Returned result (Some ErrFromNotInteger)
  end.

(** Look for indexed integer values within the specified integer range. *)
Definition IntRange (intFrom : value) (expr : object) (src : Col) (result : gset Z)
    : outcome :=
  match mapGet expr "in" with
  | None => Returned result (Some ErrMissingPath)
  | Some (VArr vecPathInterface) =>
      let vecPath := List.map Sprint vecPathInterface in
      match mapGet expr "limit" with
      | None => RangeBounds intFrom expr src vecPath 0 result
      | Some (VFloat floatLimit) =>
          RangeBounds intFrom expr src vecPath (int_of_float64 floatLimit) result
      | Some limit => Returned result (Some (ErrLimitNotNumber limit))
      end
  | Some path => Returned result (Some (ErrRangePathNotVector path))
  end.

(** The body of [EvalQuery], its recursive calls going to the evaluator
    it is given. *)
Definition EvalQueryStep (EvalQuery : evaluator) (q : value) (src : Col)
    (result : gset Z) : outcome :=
  match q with
  | VArr expr => EvalUnion EvalQuery expr src result
  | VStr expr =>
      if decide (expr = "all") then EvalAllIDs src result
      else match ParseInt expr with
           | None => Returned result (Some (ErrNotDocID expr))
           | Some docID => Returned ({[ docID ]} ∪ result) None
           end
  | VObj expr =>
      match mapGet expr "eq" with
      | Some lookupValue => Lookup lookupValue expr src result
      | None =>
      match mapGet expr "has" with
      | Some hasPath => PathExistence hasPath expr src result
      | None =>
      match mapGet expr "n" with
      | Some subExprs => Intersect EvalQuery subExprs src result
      | None =>
      match mapGet expr "c" with
      | Some subExprs => Complement EvalQuery subExprs src result
      | None =>
      match mapGet expr "int-from" with
      | Some intFrom => IntRange intFrom expr src result
      | None =>
      match mapGet expr "int from" with
      | Some intFrom => IntRange intFrom expr src result
      | None => Returned result (Some (ErrNoOperation expr))
      end end end end end end
  | _ => Returned result None
  end.

(** [EvalQuery] with a bound on the depth of its recursion. *)
Fixpoint evalQuery (fuel : nat) (q : value) (src : Col) (result : gset Z) : outcome :=
  match fuel with
  | O => OutOfFuel
  | S fuel' => EvalQueryStep (evalQuery fuel') q src result
  end.

(** Main entrance to query processor - evaluate a query and put result
    into result map (as map keys).  The recursion of the source descends
    into the query, so the depth of the query bounds it. *)
Definition EvalQuery (q : value) (src : Col) (result : gset Z) : outcome :=
  evalQuery (S (depth q)) q src result.
End QueryProcessor.

(** ** A sample environment and a sample collection

    The examples below run the query processor on concrete data.  They
    need an instance of [GoEnv] and hash tables with contents. *)
Module Sample.

(** The integer a float denotes exactly, if it denotes one. *)
Definition integral (f : float64) : option Z :=
  match f with
  | S754_zero _ => Some 0
  | S754_finite s m e =>
      if 0 <=? e then Some (if s then - (Z.pos m * 2 ^ e) else Z.pos m * 2 ^ e)
      else if Z.pos m mod 2 ^ (- e) =? 0
           then Some (if s then - (Z.pos m / 2 ^ (- e)) else Z.pos m / 2 ^ (- e))
           else None
  | _ => None
  end.

(** The [float64] with the integer value [z], as [encoding/json] decodes
    the number [z]. *)
Definition float_of_int (z : Z) : float64 :=
  match z with
  | Z0 => S754_zero false
  | Zpos p => S754_finite false p 0
  | Zneg p => S754_finite true p 0
  end.

(** Decimal digits without their trailing zeros. *)
Fixpoint dropZeros (digits : list ascii) : list ascii :=
  match digits with
  | c :: rest => if bool_decide (c = "0"%char) then dropZeros rest else digits
  | [] => []
  end.

Definition stripZeros (digits : list ascii) : list ascii := rev (dropZeros (rev digits)).

(** The exponent form [d.ddde+XX] of a positive integer: its decimal
    digits without the trailing zeros, a point after the first one, and the
    exponent with at least two digits. *)
Definition exponentForm (z : Z) : string :=
  let digits := list_ascii_of_string (pretty z) in
  let exponent := Z.of_nat (length digits) - 1 in
  let mantissa :=
    match stripZeros digits with
    | [] => ""
    | [d] => String d ""
    | d :: ds => String d ("." ++ string_of_list_ascii ds)
    end in
  mantissa ++ "e+" ++ (if exponent <? 10 then "0" else "") ++ pretty exponent.

(** [%v] of a float, the shortest [%g]: exact on the zeros and on the
    floats that denote an integer of magnitude below [2^53], where the
    shortest digits that identify the float are the digits of the integer
    without its trailing zeros; [%g] prints them plainly up to six integer
    digits and in exponent form from [10^6] on.  Any other float is
    rendered as a tag, which no example compares with a document. *)
Definition formatFloat (f : float64) : string :=
  match f with
  | S754_zero s => if s then "-0" else "0"
  | _ =>
      match integral f with
      | Some z =>
          if Z.abs z <? 10 ^ 6 then pretty z
          else if Z.abs z <? 2 ^ 53
               then (if z <? 0 then "-" else "") ++ exponentForm (Z.abs z)
               else "float64"
      | None => "float64"
      end
  end.

(** A string hash in the style of sdbm over the bytes of the string,
    made non-negative. *)
Definition strHash (s : string) : Z :=
  let h := foldl (fun hash c =>
                    wrap (Z.of_N (N_of_ascii c) + Z.shiftl hash 6 + Z.shiftl hash 16 - hash))
                 0 (list_ascii_of_string s) in
  if h <? 0 then wrap (- h) else h.

(** Modelled from the spec: the path resolver [db.GetIn] is declared
    outside the query processor.  Descend one segment at a time; at a
    mapping select the value at the segment (a missing key yields
    nothing); at an ordered sequence map the remaining path across the
    elements and flatten; a scalar with path left yields nothing; the value
    reached when the path is exhausted is a leaf. *)
Fixpoint resolve (fuel : nat) (doc : value) (path : list string) : list value :=
  match fuel with
  | O => []
  | S fuel' =>
      match path with
      | [] => [doc]
      | k :: rest =>
          match doc with
          | VObj m => match mapGet m k with
                      | Some v => resolve fuel' v rest
                      | None => []
                      end
          | VArr l => flat_map (fun x => resolve fuel' x path) l
          | _ => []
          end
      end
  end.

Definition getIn (doc : value) (path : list string) : list value :=
  resolve (S (depth doc)) doc path.

(** The sample environment.  Maps are rendered as a tag (no example
    formats one), a conversion that overflows yields the smallest [int],
    and index paths are joined by a comma. *)
#[global] Instance env : GoEnv := {|
  FormatFloat := formatFloat;
  FormatMap := fun _ => "map[]";
  ConvertOverflow := fun _ => min_int;
  StrHash := strHash;
  INDEX_PATH_SEP := ",";
  GetIn := getIn
|}.

(** Modelled from the spec: the hash table of an index is declared
    outside the query processor.  It is a multimap from hash keys to
    document identifiers; [Get] returns up to [limit] identifiers matching
    the key, a limit of 0 meaning unlimited; [GetPartition] returns the
    identifiers of one of [totalPart] consecutive chunks of the entries. *)
Definition tableOf (entries : list (Z * Z)) : HashTable := {|
  Get := fun key limit =>
    let ids := List.map snd (List.filter (fun kv => fst kv =? key) entries) in
    if 0 <? limit then take (Z.to_nat limit) ids else ids;
  GetPartition := fun partNum totalPart =>
    let len := Z.of_nat (length entries) in
    let lo := Z.to_nat (partNum * len / totalPart) in
    let hi := Z.to_nat ((partNum + 1) * len / totalPart) in
    List.map snd (take (hi - lo) (drop lo entries))
|}.

(** Modelled from the spec: the index build is outside the query
    processor.  If a document holds the value [v] at an indexed path, the
    index of the path holds the entry [(hash(str(v)), id)]: one entry per
    resolved value, keyed by the hash of its string form. *)
Definition entriesOf (path : list string) (doc : Z * value) : list (Z * Z) :=
  List.map (fun v => (StrHash (Sprint v), fst doc)) (GetIn (snd doc) path).

(** A collection over [documents] with an index on each of [paths], split
    into [parts] partitions by [key % parts]. *)
Definition partitionOf (parts : Z) (documents : list (Z * value)) (paths : list (list string))
    (num : Z) : gmap string HashTable :=
  list_to_map
    (List.map (fun path =>
                 (String.concat "," path,
                  tableOf (List.filter (fun kv => Z.rem (fst kv) parts =? num)
                                       (flat_map (entriesOf path) documents))))
              paths).

Definition collection (parts : Z) (documents : list (Z * value)) (paths : list (list string))
    : Col := {|
  indexPaths := list_to_set (List.map (String.concat ",") paths);
  numParts := parts;
  hts := partitionOf parts documents paths <$> seqZ 0 parts;
  docs := list_to_map documents;
  ApproxDocCount := Z.of_nat (length documents)
|}.

(** The JSON number [z]. *)
Definition num (z : Z) : value := VFloat (float_of_int z).

(** Documents [{1:{n:5}, 2:{n:6}, 3:{n:7}, 4:{n:9}}] with path [n]
    indexed over two partitions. *)
Definition numbers : Col :=
  collection 2
    [ (1, VObj [("n", num 5)]); (2, VObj [("n", num 6)]);
      (3, VObj [("n", num 7)]); (4, VObj [("n", num 9)]) ]
    [ ["n"] ].

(** A collection without indexes. *)
Definition unindexed : Col := collection 2 [ (1, VObj [("a", num 1)]) ] [].

(** One document [{n: 1000000}] with path [n] indexed. *)
Definition million : Col := collection 2 [ (1, VObj [("n", num 1000000)]) ] [ ["n"] ].

End Sample.

(** ** Notions the properties are stated with *)

(** The operator keys of a mapping node in the priority order of the
    specification. *)
Definition operatorKeys : list string := ["eq"; "has"; "n"; "c"; "int-from"; "int from"].

(** The first key of [keys] present in [expr], with its value. *)
Fixpoint firstPresent (expr : object) (keys : list string) : option (string * value) :=
  match keys with
  | [] => None
  | k :: keys' =>
      match mapGet expr k with
      | Some v => Some (k, v)
      | None => firstPresent expr keys'
      end
  end.

(** A [limit] modifier that passes validation: absent or a number. *)
Definition limitValid (expr : object) : Prop :=
  mapGet expr "limit" = None \/ exists f, mapGet expr "limit" = Some (VFloat f).

(** An upper range bound that passes validation: a number under
    [int-to], or under [int to] when [int-to] is absent. *)
Definition upperBoundValid (expr : object) : Prop :=
  (exists f, mapGet expr "int-to" = Some (VFloat f)) \/
  (mapGet expr "int-to" = None /\ exists f, mapGet expr "int to" = Some (VFloat f)).

(** A hash table honours limits when [Get] with a positive limit returns
    no more identifiers than the limit. *)
Definition honoursLimit (ht : HashTable) : Prop :=
  forall key limit, 0 < limit -> Z.of_nat (length (Get ht key limit)) <= limit.

Definition tablesHonourLimit (src : Col) : Prop :=
  forall num path ht, tableAt src num path = Some ht -> honoursLimit ht.

(** The operator a key selects, applied to the key's value and the whole
    mapping (whose other keys are the operator's modifiers). *)
Definition applyOperator `{env : GoEnv} (key : string) (v : value) (expr : object)
    (src : Col) (result : gset Z) : outcome :=
  if decide (key = "eq") then Lookup v expr src result
  else if decide (key = "has") then PathExistence v expr src result
  else if decide (key = "n") then Intersect EvalQuery v src result
  else if decide (key = "c") then Complement EvalQuery v src result
  else IntRange v expr src result.

(** The number a string of decimal digits denotes. *)
Definition digitsValue (s : string) : Z :=
  foldl (fun acc c => 10 * acc + default 0 (digit_of c)) 0 (list_ascii_of_string s).

(** The integer denoted by an optional sign, ['+'] or ['-'], followed by
    one or more decimal digits. *)
Definition signedDecimal (s : string) : option Z :=
  match s with
  | String c rest =>
      if bool_decide (c = "+"%char) then
        if nonempty_digits rest then Some (digitsValue rest) else None
      else if bool_decide (c = "-"%char) then
        if nonempty_digits rest then Some (- digitsValue rest) else None
      else if nonempty_digits s then Some (digitsValue s) else None
  | EmptyString => None
  end.

(** A child that succeeds on a fresh result set. *)
Definition succeedsWith `{env : GoEnv} (src : Col) (q : value) (subResult : gset Z) : Prop :=
  EvalQuery q src ∅ = Returned subResult None.

(** A document that can be read and whose resolved path holds a value
    with the given string form. *)
Definition verified `{env : GoEnv} (src : Col) (vecPath : list string) (str : string)
    (id : Z) : Prop :=
  exists doc, Read src id = Some doc /\
    exists v, In v (GetIn doc vecPath) /\ Sprint v = str.

(** An index free of hash collisions and of stale entries at the integer
    [v]: every identifier the table of [path] returns for the hash of the
    decimal string of [v] names a readable document that holds, at the
    path, a value with that string form. *)
Definition cleanAt `{env : GoEnv} (src : Col) (path : string) (vecPath : list string)
    (v : Z) : Prop :=
  forall vals, hashScan src path (StrHash (pretty v)) 0 = Some vals ->
  forall id, In id vals -> verified src vecPath (pretty v) id.

(** The lookup values of a range scan in the order the loops of [IntRange]
    visit them. *)
Definition probedValues (from to : Z) : list Z :=
  if decide (from < to) then forwardValues from to else backwardValues from to.

(** The eq node [{eq: v, in: p}]. *)
Definition eqNode (p : list value) (v : value) : value := VObj [("eq", v); ("in", VArr p)].

(** The range node [{int-from: from, int-to: to, in: p}]. *)
Definition rangeNode (p : list value) (from to : float64) : value :=
  VObj [("int-from", VFloat from); ("int-to", VFloat to); ("in", VArr p)].

(** No complement node works on the accumulator of the query: the query
    is not a c node, nor a sequence with such an element.  (The children
    of n and c nodes are evaluated on fresh sets, so what they are does not
    matter.) *)
Fixpoint complementFree (q : value) : bool :=
  match q with
  | VArr l => forallb complementFree l
  | VObj m =>
      match firstPresent m operatorKeys with
      | Some (key, _) => negb (bool_decide (key = "c"))
      | None => true
      end
  | _ => true
  end.

(** An operation on the result set that either never returns, or returns
    a fixed error and a fixed set of identifiers joined to the set it was
    given ([keep]) or in place of it. *)
Definition accumulating (op : gset Z -> outcome) : Prop :=
  (forall r, op r = Aborted) \/
  exists (keep : bool) (ids : gset Z) (err : option error),
    forall r, op r = Returned ((if keep then r else ∅) ∪ ids) err.

(** The identifiers of a scan joined to a set. *)
Definition scanAdd (r : gset Z) (s : scan) : scan :=
  match s with
  | Continue counter result => Continue counter (r ∪ result)
  | LimitReached result => LimitReached (r ∪ result)
  end.

(** ** Notions of the further properties *)

(** A query built from sequences, strings and the leaf operators eq, has
    and int-from / int from only at the level of its accumulator: no n and
    no c node works on the result set the query is given. *)
Fixpoint additive (q : value) : bool :=
  match q with
  | VArr l => forallb additive l
  | VObj m =>
      match firstPresent m operatorKeys with
      | Some (key, _) => negb (bool_decide (key = "n")) && negb (bool_decide (key = "c"))
      | None => true
      end
  | _ => true
  end.

(** An outcome with a set joined to its result. *)
Definition joinTo (r : gset Z) (o : outcome) : outcome :=
  match o with
  | Returned ids err => Returned (r ∪ ids) err
  | other => other
  end.

(** An operation that treats the result set it is given as an
    accumulator: on [r] it ends as on the empty set, with [r] joined to the
    result. *)
Definition adding (op : gset Z -> outcome) : Prop :=
  forall r, op r = joinTo r (op ∅).

(** A child that fails with an error on a fresh result set. *)
Definition failsWith `{env : GoEnv} (src : Col) (q : value) (err : error) : Prop :=
  exists subResult, EvalQuery q src ∅ = Returned subResult (Some err).

(** A child that succeeds on a fresh result set, and the sub-result it
    leaves there. *)
Definition succeeds `{env : GoEnv} (src : Col) (q : value) : Prop :=
  exists subResult, succeedsWith src q subResult.

Definition subResultOf `{env : GoEnv} (src : Col) (q : value) : gset Z :=
  match EvalQuery q src ∅ with
  | Returned subResult _ => subResult
  | _ => ∅
  end.

(** In how many of the sets an identifier occurs. *)
Definition occurrences (id : Z) (sets : list (gset Z)) : nat :=
  length (filter (fun X => id ∈ X) sets).

(** The nodes [{n: children}] and [{c: children}]. *)
Definition nNode (children : list value) : value := VObj [("n", VArr children)].
Definition cNode (children : list value) : value := VObj [("c", VArr children)].

(** The chunk count of the has scan: [ApproxDocCount / numParts / 4000],
    and 1 where that is 0. *)
Definition partDivOf (src : Col) : Z :=
  let partDiv := Z.quot (Z.quot (ApproxDocCount src) (numParts src)) 4000 in
  if decide (partDiv = 0) then partDiv + 1 else partDiv.

(** The identifiers of the index of a path in the order the has scan
    meets them: partition after partition, chunk after chunk.  [None] when
    a partition has no table for the path. *)
Fixpoint scanOrder (src : Col) (jointPath : string) (partDiv : Z) (parts : list Z)
    : option (list Z) :=
  match parts with
  | [] => Some []
  | part :: parts' =>
      match tableAt src part jointPath, scanOrder src jointPath partDiv parts' with
      | Some ht, Some rest =>
          Some (flat_map (fun i => GetPartition ht i partDiv) (seqZ 0 partDiv) ++ rest)%list
      | _, _ => None
      end
  end.

(** The identifiers the probes of a range scan return, in the order of
    the lookup values.  [None] when a probe panics. *)
Fixpoint rangeIDs `{env : GoEnv} (src : Col) (htPath : string) (limit : Z)
    (lookupValues : list Z) : option (list Z) :=
  match lookupValues with
  | [] => Some []
  | v :: rest =>
      match hashScan src htPath (StrHash (Sprint (VInt v))) limit,
            rangeIDs src htPath limit rest with
      | Some vals, Some ids => Some (vals ++ ids)%list
      | _, _ => None
      end
  end.

(** The first [k] identifiers of a list for a positive [k], all of them
    otherwise. *)
Definition limited (k : Z) (ids : list Z) : list Z :=
  if 0 <? k then take (Z.to_nat k) ids else ids.

(** The [limit] of a mapping as the operators convert it. *)
Definition limitOf `{env : GoEnv} (expr : object) (k : Z) : Prop :=
  mapGet expr "limit" = None /\ k = 0 \/
  exists f, mapGet expr "limit" = Some (VFloat f) /\ k = int_of_float64 f.

(** ** The query of the lookup benchmark *)

(** [benchSize]. *)
Definition benchSize : Z := 400000.

(** [sampleQuery()] as a function of its three [rand.Intn(benchSize)]
    draws: [rangeStart] and the operands of the two eq nodes.
    [json.Unmarshal] decodes every number of the text as a [float64]. *)
Definition sampleQuery (rangeStart eq1 eq2 : Z) : value :=
  VArr
    [ VObj [("c", VArr
        [ VObj [("eq", Sample.num eq1);
                ("in", VArr [VStr "nested"; VStr "nested"; VStr "int"])];
          VObj [("eq", Sample.num eq2); ("in", VArr [VStr "ints"])] ])];
      VObj [("int-from", Sample.num rangeStart); ("int-to", Sample.num (rangeStart + 2));
            ("in", VArr [VStr "ints"])] ].

(** Four documents with a number at each of the two paths the query
    reads, both paths indexed over two partitions. *)
Definition benchDocs : Col :=
  let doc (i a : Z) : value :=
    VObj [("nested", VObj [("nested", VObj [("int", Sample.num i)])]);
          ("ints", Sample.num a)] in
  Sample.collection 2
    [ (1, doc 7 6); (2, doc 2 5); (3, doc 7 3); (4, doc 0 9) ]
    [ ["nested"; "nested"; "int"]; ["ints"] ].

(** * Properties *)

(** ** The recursion bound of [EvalQuery] *)

Lemma depth_elem (l : list value) (x : value) :
  In x l -> (depth x < depth (VArr l))%nat.
Proof.
  simpl. induction l as [|y l IH]; intros Hin; [destruct Hin|].
  destruct Hin as [->|Hin]; simpl.
  - lia.
  - specialize (IH Hin). lia.
Qed.

Lemma depth_mapGet (m : object) (k : string) (v : value) :
  mapGet m k = Some v -> (depth v < depth (VObj m))%nat.
Proof.
  simpl. induction m as [|[k' x] m IH]; simpl; intros Hget; [discriminate|].
  destruct (decide (k' = k)).
  - injection Hget as ->. lia.
  - specialize (IH Hget). lia.
Qed.

Section FuelIndependence.
Context `{env : GoEnv}.

(** Two evaluators that agree on the children of a node evaluate the node
    alike. *)
Lemma EvalUnion_ext (ev1 ev2 : evaluator) (l : list value) (src : Col) :
  (forall x s r, In x l -> ev1 x s r = ev2 x s r) ->
  forall r, EvalUnion ev1 l src r = EvalUnion ev2 l src r.
Proof.
  induction l as [|x l IH]; intros Hagree r; simpl; [reflexivity|].
  rewrite (Hagree x src r) by (left; reflexivity).
  destruct (ev2 x src r) as [r' [e|]| |]; try reflexivity.
  apply IH. intros y s r0 Hin. apply Hagree. right; exact Hin.
Qed.

Lemma IntersectLoop_ext (ev1 ev2 : evaluator) (l : list value) (src : Col) :
  (forall x s r, In x l -> ev1 x s r = ev2 x s r) ->
  forall first r, IntersectLoop ev1 l src first r = IntersectLoop ev2 l src first r.
Proof.
  induction l as [|x l IH]; intros Hagree first r; simpl; [reflexivity|].
  rewrite (Hagree x src ∅) by (left; reflexivity).
  assert (Hrest : forall y s r0, In y l -> ev1 y s r0 = ev2 y s r0)
    by (intros y s r0 Hin; apply Hagree; right; exact Hin).
  destruct (ev2 x src ∅) as [r' [e|]| |]; try reflexivity.
  destruct first; apply IH; exact Hrest.
Qed.

Lemma ComplementLoop_ext (ev1 ev2 : evaluator) (l : list value) (src : Col) :
  (forall x s r, In x l -> ev1 x s r = ev2 x s r) ->
  forall r, ComplementLoop ev1 l src r = ComplementLoop ev2 l src r.
Proof.
  induction l as [|x l IH]; intros Hagree r; simpl; [reflexivity|].
  rewrite (Hagree x src ∅) by (left; reflexivity).
  destruct (ev2 x src ∅) as [r' [e|]| |]; try reflexivity.
  apply IH. intros y s r0 Hin. apply Hagree. right; exact Hin.
Qed.

Lemma EvalQueryStep_ext (ev1 ev2 : evaluator) (q : value) (src : Col) (r : gset Z) :
  (forall q' s r', (depth q' < depth q)%nat -> ev1 q' s r' = ev2 q' s r') ->
  EvalQueryStep ev1 q src r = EvalQueryStep ev2 q src r.
Proof.
  intros Hagree. destruct q as [| | | | |l|m]; try reflexivity.
  - cbn [EvalQueryStep]. apply EvalUnion_ext.
    intros x s r' Hin. apply Hagree, depth_elem, Hin.
  - cbn [EvalQueryStep].
    destruct (mapGet m "eq"); [reflexivity|].
    destruct (mapGet m "has"); [reflexivity|].
    destruct (mapGet m "n") as [v|] eqn:Hn.
    { destruct v as [| | | | |l|]; try reflexivity.
      cbn [Intersect]. apply IntersectLoop_ext. intros x s r' Hin.
      apply Hagree. pose proof (depth_mapGet _ _ _ Hn). pose proof (depth_elem _ _ Hin). lia. }
    destruct (mapGet m "c") as [v|] eqn:Hc; [|reflexivity].
    destruct v as [| | | | |l|]; try reflexivity.
    cbn [Complement]. apply ComplementLoop_ext. intros x s r' Hin.
    apply Hagree. pose proof (depth_mapGet _ _ _ Hc). pose proof (depth_elem _ _ Hin). lia.
Qed.

Lemma evalQuery_fuel (n1 n2 : nat) (q : value) (src : Col) (r : gset Z) :
  (depth q < n1)%nat -> (depth q < n2)%nat ->
  evalQuery n1 q src r = evalQuery n2 q src r.
Proof.
  revert n2 q src r. induction n1 as [|n1 IH]; intros n2 q src r H1 H2; [lia|].
  destruct n2 as [|n2]; [lia|]. cbn [evalQuery].
  apply EvalQueryStep_ext. intros q' s r' Hlt. apply IH; lia.
Qed.

(** [EvalQuery] satisfies the recursive equation of the source: its body,
    with the recursive calls going to [EvalQuery] itself. *)
Lemma EvalQuery_unfold (q : value) (src : Col) (r : gset Z) :
  EvalQuery q src r = EvalQueryStep EvalQuery q src r.
Proof.
  unfold EvalQuery at 1. cbn [evalQuery]. apply EvalQueryStep_ext.
  intros q' s r' Hlt. unfold EvalQuery. apply evalQuery_fuel; lia.
Qed.

End FuelIndependence.

Section Totality.
Context `{env : GoEnv}.

Lemma scanParts_fuel src jointPath intLimit partDiv parts counter result :
  scanParts src jointPath intLimit partDiv parts counter result <> OutOfFuel.
Proof.
  revert counter result. induction parts as [|p parts IH]; intros counter result; simpl.
  - discriminate.
  - destruct (tableAt src p jointPath); [|discriminate].
    destruct (scanChunks _ _ _ _ _ _); [apply IH|discriminate].
Qed.

Lemma Lookup_fuel lookupValue expr src result :
  Lookup lookupValue expr src result <> OutOfFuel.
Proof. unfold Lookup, LookupScan. repeat case_match; discriminate. Qed.

Lemma PathExistence_fuel hasPath expr src result :
  PathExistence hasPath expr src result <> OutOfFuel.
Proof.
  unfold PathExistence, ExistenceScan.
  repeat case_match; try discriminate; apply scanParts_fuel.
Qed.

Lemma IntRange_fuel intFrom expr src result :
  IntRange intFrom expr src result <> OutOfFuel.
Proof. unfold IntRange, RangeBounds, RangeScan. repeat case_match; discriminate. Qed.

Lemma EvalUnion_fuel (ev : evaluator) l src :
  (forall x s r, In x l -> ev x s r <> OutOfFuel) ->
  forall r, EvalUnion ev l src r <> OutOfFuel.
Proof.
  induction l as [|x l IH]; intros Hev r; simpl; [discriminate|].
  pose proof (Hev x src r (or_introl eq_refl)) as Hx.
  destruct (ev x src r) as [r' [e|]| |]; try discriminate; [|congruence].
  apply IH. intros y s r0 Hin. apply Hev. right; exact Hin.
Qed.

Lemma IntersectLoop_fuel (ev : evaluator) l src :
  (forall x s r, In x l -> ev x s r <> OutOfFuel) ->
  forall first r, IntersectLoop ev l src first r <> OutOfFuel.
Proof.
  induction l as [|x l IH]; intros Hev first r; simpl; [discriminate|].
  pose proof (Hev x src ∅ (or_introl eq_refl)) as Hx.
  assert (Hrest : forall y s r0, In y l -> ev y s r0 <> OutOfFuel)
    by (intros y s r0 Hin; apply Hev; right; exact Hin).
  destruct (ev x src ∅) as [r' [e|]| |]; try discriminate; [|congruence].
  destruct first; apply IH; exact Hrest.
Qed.

Lemma ComplementLoop_fuel (ev : evaluator) l src :
  (forall x s r, In x l -> ev x s r <> OutOfFuel) ->
  forall r, ComplementLoop ev l src r <> OutOfFuel.
Proof.
  induction l as [|x l IH]; intros Hev r; simpl; [discriminate|].
  pose proof (Hev x src ∅ (or_introl eq_refl)) as Hx.
  destruct (ev x src ∅) as [r' [e|]| |]; try discriminate; [|congruence].
  apply IH. intros y s r0 Hin. apply Hev. right; exact Hin.
Qed.

Lemma evalQuery_enough_fuel (n : nat) (q : value) (src : Col) (r : gset Z) :
  (depth q < n)%nat -> evalQuery n q src r <> OutOfFuel.
Proof.
  revert q src r. induction n as [|n IH]; intros q src r Hlt; [lia|].
  cbn [evalQuery]. destruct q as [| | | | s|l|m]; cbn [EvalQueryStep]; try discriminate.
  - unfold EvalAllIDs. repeat case_match; discriminate.
  - apply EvalUnion_fuel. intros x s r' Hin. apply IH.
    pose proof (depth_elem _ _ Hin). lia.
  - destruct (mapGet m "eq"); [apply Lookup_fuel|].
    destruct (mapGet m "has"); [apply PathExistence_fuel|].
    destruct (mapGet m "n") as [v|] eqn:Hn.
    { destruct v as [| | | | |l|]; try discriminate.
      cbn [Intersect]. apply IntersectLoop_fuel. intros x s r' Hin. apply IH.
      pose proof (depth_mapGet _ _ _ Hn). pose proof (depth_elem _ _ Hin). lia. }
    destruct (mapGet m "c") as [v|] eqn:Hc.
    { destruct v as [| | | | |l|]; try discriminate.
      cbn [Complement]. apply ComplementLoop_fuel. intros x s r' Hin. apply IH.
      pose proof (depth_mapGet _ _ _ Hc). pose proof (depth_elem _ _ Hin). lia. }
    destruct (mapGet m "int-from"); [apply IntRange_fuel|].
    destruct (mapGet m "int from"); [apply IntRange_fuel|discriminate].
Qed.

(** The recursion bound of [EvalQuery] is never reached: every call
    returns or aborts as the source does. *)
Lemma EvalQuery_total (q : value) (src : Col) (r : gset Z) :
  EvalQuery q src r <> OutOfFuel.
Proof. unfold EvalQuery. apply evalQuery_enough_fuel. lia. Qed.

End Totality.

(** ** Set algebra of the combinators' inner loops *)

Lemma intersectionOf_spec (subResult result : gset Z) :
  intersectionOf subResult result = result ∩ subResult.
Proof.
  unfold intersectionOf.
  apply (set_fold_ind_L (fun acc X => acc = result ∩ X)).
  - set_solver.
  - intros x X acc Hx ->. destruct (decide (x ∈ result)); set_solver.
Qed.

Lemma complementOf_spec (subResult result : gset Z) :
  complementOf subResult result = (subResult ∖ result) ∪ (result ∖ subResult).
Proof.
  unfold complementOf.
  assert (Hfirst :
    set_fold (fun k acc => if decide (k ∈ result) then acc else {[ k ]} ∪ acc) ∅ subResult
    = subResult ∖ result).
  { apply (set_fold_ind_L (fun acc X => acc = X ∖ result)).
    - set_solver.
    - intros x X acc Hx ->. destruct (decide (x ∈ result)); set_solver. }
  rewrite Hfirst.
  apply (set_fold_ind_L (fun acc X => acc = (subResult ∖ result) ∪ (X ∖ subResult))).
  - set_solver.
  - intros x X acc Hx ->. destruct (decide (x ∈ subResult)); set_solver.
Qed.

Lemma EvalAllIDs_spec (src : Col) (result : gset Z) :
  EvalAllIDs src result = Returned (dom (docs src) ∪ result) None.
Proof.
  unfold EvalAllIDs. f_equal.
  apply (map_fold_weak_ind (fun acc (m : gmap Z value) => acc = dom m ∪ result)).
  - set_solver.
  - intros i x m acc Hi ->. rewrite dom_insert_L. set_solver.
Qed.

(** ** Dispatch *)

Section Dispatch.
Context `{env : GoEnv}.

Lemma EvalQuery_arr (exprs : list value) (src : Col) (result : gset Z) :
  EvalQuery (VArr exprs) src result = EvalUnion EvalQuery exprs src result.
Proof. exact (EvalQuery_unfold (VArr exprs) src result). Qed.

Lemma EvalQuery_all (src : Col) (result : gset Z) :
  EvalQuery (VStr "all") src result = Returned (dom (docs src) ∪ result) None.
Proof. rewrite EvalQuery_unfold. cbn [EvalQueryStep]. apply EvalAllIDs_spec. Qed.

Lemma EvalQuery_str (s : string) (src : Col) (result : gset Z) :
  s <> "all" ->
  EvalQuery (VStr s) src result =
    match ParseInt s with
    | Some docID => Returned ({[ docID ]} ∪ result) None
    | None => Returned result (Some (ErrNotDocID s))
    end.
Proof.
  intros Hs. rewrite EvalQuery_unfold. cbn [EvalQueryStep].
  destruct (decide (s = "all")); [contradiction|]. destruct (ParseInt s); reflexivity.
Qed.

Lemma EvalQuery_obj (expr : object) (src : Col) (result : gset Z) :
  EvalQuery (VObj expr) src result =
    match firstPresent expr operatorKeys with
    | Some (key, v) => applyOperator key v expr src result
    | None => Returned result (Some (ErrNoOperation expr))
    end.
Proof.
  rewrite EvalQuery_unfold. cbn [EvalQueryStep firstPresent operatorKeys].
  unfold applyOperator.
  destruct (mapGet expr "eq"); [reflexivity|].
  destruct (mapGet expr "has"); [reflexivity|].
  destruct (mapGet expr "n"); [reflexivity|].
  destruct (mapGet expr "c"); [reflexivity|].
  destruct (mapGet expr "int-from"); [reflexivity|].
  destruct (mapGet expr "int from"); reflexivity.
Qed.

Lemma firstPresent_None (expr : object) (keys : list string) :
  firstPresent expr keys = None <-> Forall (fun k => mapGet expr k = None) keys.
Proof.
  induction keys as [|k keys IH]; simpl.
  - split; [constructor|reflexivity].
  - destruct (mapGet expr k) eqn:Hk.
    + split; [discriminate|]. intros HF. inversion HF; congruence.
    + rewrite IH. split; [intros; constructor; assumption|]. intros HF. inversion HF; assumption.
Qed.

Lemma firstPresent_Some (expr : object) (keys : list string) (k : string) (v : value) :
  firstPresent expr keys = Some (k, v) <->
  exists before after, keys = (before ++ k :: after)%list /\
    Forall (fun k' => mapGet expr k' = None) before /\ mapGet expr k = Some v.
Proof.
  revert k v. induction keys as [|k0 keys IH]; intros k v; simpl.
  - split; [discriminate|]. intros (before & after & Heq & _). destruct before; discriminate.
  - destruct (mapGet expr k0) eqn:Hk0.
    + split.
      * intros [= <- <-]. exists [], keys. repeat split; [constructor|assumption].
      * intros (before & after & Heq & Hbefore & Hk).
        destruct before as [|b before]; simpl in Heq; injection Heq as -> ->.
        -- congruence.
        -- inversion Hbefore; congruence.
    + rewrite IH. split.
      * intros (before & after & -> & Hbefore & Hk).
        exists (k0 :: before), after. repeat split; [constructor|]; assumption.
      * intros (before & after & Heq & Hbefore & Hk).
        destruct before as [|b before]; simpl in Heq; injection Heq as -> ->.
        -- congruence.
        -- exists before, after. inversion Hbefore. repeat split; assumption.
Qed.

(** C9.  Mapping dispatch.  A mapping node is evaluated by the operator of
    the first of the keys eq, has, n, c, int-from, int from (in this
    order) that the mapping contains, the operator receiving the key's
    value and the whole mapping; a mapping with none of these keys returns
    the "no operation" error, an InvalidQuery, with the result untouched;
    a node that is neither a sequence, a string nor a mapping returns
    success with the result untouched. *)
Theorem C9_mapping_dispatch (src : Col) (result : gset Z) :
  (forall expr,
     EvalQuery (VObj expr) src result =
       match firstPresent expr operatorKeys with
       | Some (key, v) => applyOperator key v expr src result
       | None => Returned result (Some (ErrNoOperation expr))
       end) /\
  (forall expr key v,
     firstPresent expr operatorKeys = Some (key, v) <->
     exists before after, operatorKeys = (before ++ key :: after)%list /\
       Forall (fun k' => mapGet expr k' = None) before /\ mapGet expr key = Some v) /\
  (forall expr,
     firstPresent expr operatorKeys = None <->
     Forall (fun k => mapGet expr k = None) operatorKeys) /\
  (forall expr, kind_of (ErrNoOperation expr) = InvalidQuery) /\
  EvalQuery VNil src result = Returned result None /\
  (forall b, EvalQuery (VBool b) src result = Returned result None) /\
  (forall f, EvalQuery (VFloat f) src result = Returned result None) /\
  (forall i, EvalQuery (VInt i) src result = Returned result None).
Proof.
  split; [intros; apply EvalQuery_obj|].
  split; [intros; apply firstPresent_Some|].
  split; [intros; apply firstPresent_None|].
  repeat split; intros; rewrite EvalQuery_unfold; reflexivity.
Qed.

End Dispatch.

(** ** String nodes *)

Lemma parse_digits_spec (s : string) (acc : Z) :
  parse_digits s acc =
    if all_digits s
    then Some (foldl (fun a c => 10 * a + default 0 (digit_of c)) acc (list_ascii_of_string s))
    else None.
Proof.
  revert acc. induction s as [|c s IH]; intros acc; simpl; [reflexivity|].
  destruct (digit_of c) as [d|]; [|reflexivity]. rewrite IH. reflexivity.
Qed.

Lemma ParseUint_spec (s : string) :
  ParseUint s = if nonempty_digits s then Some (digitsValue s) else None.
Proof.
  destruct s as [|c s]; [reflexivity|].
  unfold ParseUint, nonempty_digits, digitsValue. apply parse_digits_spec.
Qed.

Lemma digit_of_nonneg (c : ascii) : 0 <= default 0 (digit_of c).
Proof.
  unfold digit_of. destruct (andb _ _) eqn:Hc; simpl; [|lia].
  apply andb_prop in Hc as [H1 _]. apply Z.leb_le in H1. lia.
Qed.

Lemma digitsValue_nonneg (s : string) : 0 <= digitsValue s.
Proof.
  unfold digitsValue. generalize (list_ascii_of_string s) as l.
  assert (H : forall l acc, 0 <= acc ->
            0 <= foldl (fun a c => 10 * a + default 0 (digit_of c)) acc l).
  { induction l as [|c l IH]; intros acc Hacc; simpl; [assumption|].
    apply IH. pose proof (digit_of_nonneg c). lia. }
  intros l. apply H. lia.
Qed.

(** [ParseInt] accepts exactly the signed decimals that fit [int]. *)
Lemma ParseInt_spec (s : string) :
  ParseInt s =
    match signedDecimal s with
    | Some z => if decide (in_int z) then Some z else None
    | None => None
    end.
Proof.
  destruct s as [|c rest]; [reflexivity|].
  unfold ParseInt, signedDecimal.
  destruct (bool_decide (c = "+"%char)) eqn:Hplus.
  - apply bool_decide_eq_true in Hplus as ->.
    replace (bool_decide ("+"%char = "-"%char)) with false by reflexivity.
    cbn [orb negb andb].
    rewrite ParseUint_spec. destruct (nonempty_digits rest); [|reflexivity].
    pose proof (digitsValue_nonneg rest) as Hnn.
    destruct (2 ^ 63 <=? digitsValue rest) eqn:Hle; simpl.
    + apply Z.leb_le in Hle. destruct (decide (in_int _)) as [Hin|]; [|reflexivity].
      unfold in_int, max_int in Hin. lia.
    + apply Z.leb_gt in Hle. destruct (decide (in_int _)) as [|Hout]; [reflexivity|].
      exfalso. apply Hout. unfold in_int, min_int, max_int. lia.
  - destruct (bool_decide (c = "-"%char)) eqn:Hminus; cbn [orb negb andb].
    + rewrite ParseUint_spec. destruct (nonempty_digits rest); [|reflexivity].
      pose proof (digitsValue_nonneg rest) as Hnn.
      destruct (2 ^ 63 <? digitsValue rest) eqn:Hlt.
      * apply Z.ltb_lt in Hlt. destruct (decide (in_int _)) as [Hin|]; [|reflexivity].
        unfold in_int, min_int in Hin. lia.
      * apply Z.ltb_ge in Hlt. destruct (decide (in_int _)) as [|Hout]; [reflexivity|].
        exfalso. apply Hout. unfold in_int, min_int, max_int. lia.
    + rewrite ParseUint_spec. destruct (nonempty_digits (String c rest)); [|reflexivity].
      pose proof (digitsValue_nonneg (String c rest)) as Hnn.
      destruct (2 ^ 63 <=? digitsValue (String c rest)) eqn:Hle.
      * apply Z.leb_le in Hle. destruct (decide (in_int _)) as [Hin|]; [|reflexivity].
        unfold in_int, max_int in Hin. lia.
      * apply Z.leb_gt in Hle. destruct (decide (in_int _)) as [|Hout]; [reflexivity|].
        exfalso. apply Hout. unfold in_int, min_int, max_int. lia.
Qed.

(** The strings of the pattern [^-?\d+$] are signed decimals. *)
Lemma pattern_signedDecimal (s : string) :
  matches_docid_pattern s = true -> is_Some (signedDecimal s).
Proof.
  destruct s as [|c rest]; [discriminate|].
  unfold matches_docid_pattern, signedDecimal.
  destruct (bool_decide (c = "-"%char)) eqn:Hminus.
  - apply bool_decide_eq_true in Hminus as ->. simpl. intros ->. eexists; reflexivity.
  - destruct (bool_decide (c = "+"%char)) eqn:Hplus.
    + apply bool_decide_eq_true in Hplus as ->. discriminate.
    + intros ->. eexists; reflexivity.
Qed.

Section StringNodes.
Context `{env : GoEnv}.

(** C8 (as amended).  The string "all" adds the identifier of every
    document of the collection and succeeds.  Any other string that is a
    signed decimal (an optional '+' or '-' and one or more decimal digits)
    of a value that fits a 64-bit int adds exactly that integer and
    succeeds.  Every remaining string (no signed decimal, or one out of
    range) fails with the "not a document PK ID" error, an InvalidQuery,
    and leaves the result unchanged.  The strings of the pattern
    [^-?\d+$] are signed decimals. *)
Theorem C8_string_node (src : Col) (result : gset Z) (s : string) :
  EvalQuery (VStr "all") src result = Returned (dom (docs src) ∪ result) None /\
  (s <> "all" ->
     (forall id, signedDecimal s = Some id -> in_int id ->
        EvalQuery (VStr s) src result = Returned ({[ id ]} ∪ result) None) /\
     ((signedDecimal s = None \/ exists z, signedDecimal s = Some z /\ ~ in_int z) ->
        EvalQuery (VStr s) src result = Returned result (Some (ErrNotDocID s)) /\
        kind_of (ErrNotDocID s) = InvalidQuery)) /\
  (matches_docid_pattern s = true -> is_Some (signedDecimal s)).
Proof.
  split; [apply EvalQuery_all|]. split; [|apply pattern_signedDecimal].
  intros Hs. split.
  - intros id Hid Hin. rewrite (EvalQuery_str s src result Hs), ParseInt_spec, Hid.
    destruct (decide (in_int id)); [reflexivity|contradiction].
  - intros Hbad. split; [|reflexivity].
    rewrite (EvalQuery_str s src result Hs), ParseInt_spec.
    destruct Hbad as [->|(z & -> & Hz)]; [reflexivity|].
    destruct (decide (in_int z)); [contradiction|reflexivity].
Qed.

End StringNodes.

(** The string "+5" is outside the pattern [^-?\d+$] and is not "all", yet
    it evaluates successfully to the identifier 5; the string
    "9223372036854775808" is inside the pattern, yet it fails. *)
Lemma C8_counterexample :
  (matches_docid_pattern "+5" = false /\ "+5" <> "all" /\
   EvalQuery (VStr "+5") Sample.numbers ∅ = Returned {[ 5 ]} None) /\
  (matches_docid_pattern "9223372036854775808" = true /\
   EvalQuery (VStr "9223372036854775808") Sample.numbers ∅ =
     Returned ∅ (Some (ErrNotDocID "9223372036854775808"))).
Proof.
  repeat split; try discriminate; vm_compute; reflexivity.
Qed.

(** The string "+5" on the sample collection. *)
Lemma C8_string_node_witness :
  "+5" <> "all" /\ in_int 5 /\
  EvalQuery (VStr "+5") Sample.numbers ∅ = Returned ({[ 5 ]} ∪ ∅) None.
Proof.
  assert (Hne : "+5" <> "all") by discriminate.
  assert (Hin : in_int 5) by (unfold in_int, min_int, max_int; lia).
  split; [exact Hne|]. split; [exact Hin|].
  destruct (C8_string_node Sample.numbers ∅ "+5") as (_ & Hstr & _).
  destruct (Hstr Hne) as [Hok _]. apply Hok; [reflexivity|exact Hin].
Defined.

(** ** Set combinators *)

Section Combinators.
Context `{env : GoEnv}.

Lemma IntersectLoop_first q qs src result subResult :
  succeedsWith src q subResult ->
  IntersectLoop EvalQuery (q :: qs) src true result =
  IntersectLoop EvalQuery qs src false subResult.
Proof. unfold succeedsWith. intros Hq. cbn [IntersectLoop]. rewrite Hq. reflexivity. Qed.

Lemma IntersectLoop_next q qs src result subResult :
  succeedsWith src q subResult ->
  IntersectLoop EvalQuery (q :: qs) src false result =
  IntersectLoop EvalQuery qs src false (result ∩ subResult).
Proof.
  unfold succeedsWith. intros Hq. cbn [IntersectLoop]. rewrite Hq, intersectionOf_spec.
  reflexivity.
Qed.

Lemma IntersectLoop_all qs src result subResults :
  Forall2 (succeedsWith src) qs subResults ->
  IntersectLoop EvalQuery qs src false result = Returned (foldl (∩) result subResults) None.
Proof.
  intros Hall. revert result.
  induction Hall as [|q S qs Ss Hq _ IH]; intros result; [reflexivity|].
  rewrite (IntersectLoop_next _ _ _ _ _ Hq). apply IH.
Qed.

Lemma EvalQuery_n expr subExprs src result :
  mapGet expr "eq" = None -> mapGet expr "has" = None -> mapGet expr "n" = Some subExprs ->
  EvalQuery (VObj expr) src result = Intersect EvalQuery subExprs src result.
Proof.
  intros Heq Hhas Hn. rewrite EvalQuery_obj. cbn [firstPresent operatorKeys].
  rewrite Heq, Hhas, Hn. reflexivity.
Qed.

(** C7.  Intersection.  For an n-node whose value is the sequence
    [children], each child being evaluated on a fresh (empty) sub-result:
    with no children the result is left untouched; after a first child
    with sub-result [S] the accumulator is [S], whatever it held before;
    after every later child with sub-result [S] the accumulator [acc] is
    [acc ∩ S]; so, when the children succeed with sub-results
    [S :: Ss], the node returns the intersection of all of them. *)
Theorem C7_intersection (expr : object) (children : list value) (src : Col) (result : gset Z) :
  mapGet expr "eq" = None -> mapGet expr "has" = None ->
  mapGet expr "n" = Some (VArr children) ->
  EvalQuery (VObj expr) src result = IntersectLoop EvalQuery children src true result /\
  (children = [] -> EvalQuery (VObj expr) src result = Returned result None) /\
  (forall q qs S, children = q :: qs -> succeedsWith src q S ->
     EvalQuery (VObj expr) src result = IntersectLoop EvalQuery qs src false S) /\
  (forall q qs S acc, succeedsWith src q S ->
     IntersectLoop EvalQuery (q :: qs) src false acc =
     IntersectLoop EvalQuery qs src false (acc ∩ S)) /\
  (forall S Ss, Forall2 (succeedsWith src) children (S :: Ss) ->
     EvalQuery (VObj expr) src result = Returned (foldl (∩) S Ss) None).
Proof.
  intros Heq Hhas Hn. rewrite (EvalQuery_n _ _ _ _ Heq Hhas Hn). cbn [Intersect].
  split; [reflexivity|]. split; [intros ->; reflexivity|]. split.
  { intros q qs S -> Hq. apply IntersectLoop_first, Hq. }
  split.
  { intros q qs S acc Hq. apply IntersectLoop_next, Hq. }
  intros S Ss Hall. inversion Hall as [|q S' qs Ss' Hq Hrest]; subst.
  rewrite (IntersectLoop_first _ _ _ _ _ Hq). apply IntersectLoop_all, Hrest.
Qed.

Lemma ComplementLoop_next q qs src result subResult :
  succeedsWith src q subResult ->
  ComplementLoop EvalQuery (q :: qs) src result =
  ComplementLoop EvalQuery qs src ((subResult ∖ result) ∪ (result ∖ subResult)).
Proof.
  unfold succeedsWith. intros Hq. cbn [ComplementLoop]. rewrite Hq, complementOf_spec.
  reflexivity.
Qed.

Lemma ComplementLoop_all qs src result subResults :
  Forall2 (succeedsWith src) qs subResults ->
  ComplementLoop EvalQuery qs src result =
  Returned (foldl (fun acc S => (S ∖ acc) ∪ (acc ∖ S)) result subResults) None.
Proof.
  intros Hall. revert result.
  induction Hall as [|q S qs Ss Hq _ IH]; intros result; [reflexivity|].
  rewrite (ComplementLoop_next _ _ _ _ _ Hq). apply IH.
Qed.

Lemma EvalQuery_c expr subExprs src result :
  mapGet expr "eq" = None -> mapGet expr "has" = None -> mapGet expr "n" = None ->
  mapGet expr "c" = Some subExprs ->
  EvalQuery (VObj expr) src result = Complement EvalQuery subExprs src result.
Proof.
  intros Heq Hhas Hn Hc. rewrite EvalQuery_obj. cbn [firstPresent operatorKeys].
  rewrite Heq, Hhas, Hn, Hc. reflexivity.
Qed.

Lemma succeedsWith_docid (src : Col) (d : string) (id : Z) :
  d <> "all" -> ParseInt d = Some id -> succeedsWith src (VStr d) {[ id ]}.
Proof.
  intros Hd Hid. unfold succeedsWith. rewrite (EvalQuery_str d src ∅ Hd), Hid.
  f_equal. set_solver.
Qed.

(** C6.  Complement.  For a c-node whose value is the sequence
    [children]: after every child with sub-result [S] the accumulator
    [acc] is the symmetric difference [(S ∖ acc) ∪ (acc ∖ S)], so the node
    returns the fold of the symmetric difference over the children's
    sub-results, starting from the result it was given.  On an empty
    result, [{c: ["1", "2"]}] yields [{1, 2}], and [{c: [d, d]}] yields
    the empty set for every document-identifier string [d]. *)
Theorem C6_complement_fold (src : Col) :
  (forall expr children result,
     mapGet expr "eq" = None -> mapGet expr "has" = None -> mapGet expr "n" = None ->
     mapGet expr "c" = Some (VArr children) ->
     EvalQuery (VObj expr) src result = ComplementLoop EvalQuery children src result) /\
  (forall q qs S acc, succeedsWith src q S ->
     ComplementLoop EvalQuery (q :: qs) src acc =
     ComplementLoop EvalQuery qs src ((S ∖ acc) ∪ (acc ∖ S))) /\
  (forall children Ss result, Forall2 (succeedsWith src) children Ss ->
     ComplementLoop EvalQuery children src result =
     Returned (foldl (fun acc S => (S ∖ acc) ∪ (acc ∖ S)) result Ss) None) /\
  EvalQuery (VObj [("c", VArr [VStr "1"; VStr "2"])]) src ∅ = Returned {[ 1; 2 ]} None /\
  (forall d id, d <> "all" -> ParseInt d = Some id ->
     EvalQuery (VObj [("c", VArr [VStr d; VStr d])]) src ∅ = Returned ∅ None).
Proof.
  split.
  { intros expr children result Heq Hhas Hn Hc.
    rewrite (EvalQuery_c _ _ _ _ Heq Hhas Hn Hc). reflexivity. }
  split; [intros q qs S acc Hq; apply ComplementLoop_next, Hq|].
  split; [intros children Ss result Hall; apply ComplementLoop_all, Hall|].
  split.
  - rewrite (EvalQuery_c _ (VArr [VStr "1"; VStr "2"])) by reflexivity. cbn [Complement].
    rewrite (ComplementLoop_all _ _ _ [ {[ 1 ]}; {[ 2 ]} ]).
    + f_equal.
    + repeat constructor; apply succeedsWith_docid; (discriminate || reflexivity).
  - intros d id Hd Hid.
    rewrite (EvalQuery_c _ (VArr [VStr d; VStr d])) by reflexivity. cbn [Complement].
    rewrite (ComplementLoop_all _ _ _ [ {[ id ]}; {[ id ]} ]).
    + f_equal. cbn [foldl]. set_solver.
    + repeat constructor; apply succeedsWith_docid; assumption.
Qed.

(** C1 at its failing input.  The query [q = {c: ["1"]}] evaluates to
    [{1}] on an empty result, and the sequence [[q, q]] evaluates to the
    empty set: the second [q] folds its sub-result into the accumulator
    the first one filled. *)
Theorem C1_union_not_idempotent (src : Col) :
  let q := VObj [("c", VArr [VStr "1"])] in
  EvalQuery q src ∅ = Returned {[ 1 ]} None /\
  EvalQuery (VArr [q; q]) src ∅ = Returned ∅ None.
Proof.
  intros q.
  assert (Hq : forall result,
            EvalQuery q src result = Returned (({[ 1 ]} ∖ result) ∪ (result ∖ {[ 1 ]})) None).
  { intros result. unfold q.
    rewrite (EvalQuery_c _ (VArr [VStr "1"])) by reflexivity. cbn [Complement].
    rewrite (ComplementLoop_all _ _ _ [ {[ 1 ]} ]); [reflexivity|].
    repeat constructor; apply succeedsWith_docid; (discriminate || reflexivity). }
  split.
  - rewrite Hq. f_equal; set_solver.
  - rewrite EvalQuery_arr. cbn [EvalUnion]. rewrite Hq.
    rewrite Hq. f_equal; set_solver.
Qed.

End Combinators.

(** [{n: [{eq: 6, in: [n]}, {eq: 5, in: [n]}]}] on the sample collection,
    evaluated on a result that holds 42: the intersection of [{2}] and
    [{1}], the 42 being dropped. *)
Lemma C7_intersection_witness :
  let children := [VObj [("eq", Sample.num 6); ("in", VArr [VStr "n"])];
                   VObj [("eq", Sample.num 5); ("in", VArr [VStr "n"])]] in
  let expr := [("n", VArr children)] in
  mapGet expr "eq" = None /\ mapGet expr "has" = None /\
  mapGet expr "n" = Some (VArr children) /\
  EvalQuery (VObj expr) Sample.numbers {[ 42 ]} = Returned (foldl (∩) {[ 2 ]} [ {[ 1 ]} ]) None.
Proof.
  intros children expr.
  split; [reflexivity|]. split; [reflexivity|]. split; [reflexivity|].
  destruct (C7_intersection expr children Sample.numbers {[ 42 ]} eq_refl eq_refl eq_refl)
    as (_ & _ & _ & _ & Hall).
  apply Hall. repeat constructor; vm_compute; reflexivity.
Defined.

(** [{c: ["7", "7"]}] on the sample collection. *)
Lemma C6_complement_fold_witness :
  "7" <> "all" /\ ParseInt "7" = Some 7 /\
  EvalQuery (VObj [("c", VArr [VStr "7"; VStr "7"])]) Sample.numbers ∅ = Returned ∅ None.
Proof.
  assert (Hne : "7" <> "all") by discriminate.
  split; [exact Hne|]. split; [reflexivity|].
  destruct (C6_complement_fold Sample.numbers) as (_ & _ & _ & _ & Hdd).
  apply (Hdd "7" 7 Hne eq_refl).
Defined.

(** ** Equality lookup *)

Section EqualityLookup.
Context `{env : GoEnv}.

Lemma verifyMatch_elem src vecPath str result m id :
  id ∈ verifyMatch src vecPath str result m <->
  id ∈ result \/ (id = m /\ verified src vecPath str m).
Proof.
  unfold verifyMatch, verified. destruct (Read src m) as [doc|].
  - assert (H : forall l (acc : gset Z),
        id ∈ foldl (fun acc v => if decide (Sprint v = str) then {[ m ]} ∪ acc else acc) acc l
        <-> id ∈ acc \/ (id = m /\ exists v, In v l /\ Sprint v = str)).
    { induction l as [|v l IH]; intros acc; simpl.
      - split; [auto|]. intros [?|(_ & v & [] & _)]; assumption.
      - rewrite IH. destruct (decide (Sprint v = str)) as [Hv|Hv].
        + rewrite elem_of_union, elem_of_singleton. split.
          * intros [[->|?]|(-> & v' & Hin & Hv')]; eauto 8.
          * intros [?|(-> & v' & [->|Hin] & Hv')]; eauto 8.
        + split.
          * intros [?|(-> & v' & Hin & Hv')]; eauto 8.
          * intros [?|(-> & v' & [->|Hin] & Hv')]; eauto 8. contradiction. }
    rewrite H. split.
    + intros [?|(-> & v & Hin & Hv)]; eauto 8.
    + intros [?|(-> & doc' & [= <-] & v & Hin & Hv)]; eauto 8.
  - split; [auto|]. intros [?|(_ & doc & Hdoc & _)]; [assumption|discriminate].
Qed.

(** The filter of [Lookup] adds exactly the candidates that verify. *)
Lemma foldl_verifyMatch_elem src vecPath str vals result id :
  id ∈ foldl (verifyMatch src vecPath str) result vals <->
  id ∈ result \/ (In id vals /\ verified src vecPath str id).
Proof.
  revert result. induction vals as [|m vals IH]; intros result; simpl.
  - split; [auto|]. intros [?|([] & _)]; assumption.
  - rewrite IH, verifyMatch_elem. split.
    + intros [[?|(-> & Hv)]|(Hin & Hv)]; eauto.
    + intros [?|([->|Hin] & Hv)]; eauto.
Qed.

Lemma Lookup_success lookupValue expr src result result' :
  Lookup lookupValue expr src result = Returned result' None ->
  exists path limit ht,
    mapGet expr "in" = Some (VArr path) /\
    tableAt src (Z.rem (StrHash (Sprint lookupValue)) (numParts src))
            (String.concat INDEX_PATH_SEP (List.map Sprint path)) = Some ht /\
    result' = foldl (verifyMatch src (List.map Sprint path) (Sprint lookupValue)) result
                    (Get ht (StrHash (Sprint lookupValue)) limit).
Proof.
  unfold Lookup. destruct (mapGet expr "in") as [[| | | | |path|]|]; try discriminate.
  assert (Hscan : forall limit,
    LookupScan expr src (List.map Sprint path) limit (Sprint lookupValue) result
      = Returned result' None ->
    exists ht,
      tableAt src (Z.rem (StrHash (Sprint lookupValue)) (numParts src))
              (String.concat INDEX_PATH_SEP (List.map Sprint path)) = Some ht /\
      result' = foldl (verifyMatch src (List.map Sprint path) (Sprint lookupValue)) result
                      (Get ht (StrHash (Sprint lookupValue)) limit)).
  { intros limit. unfold LookupScan.
    destruct (decide (_ ∈ indexPaths src)); [|discriminate].
    destruct (decide (numParts src = 0)); [discriminate|].
    destruct (tableAt src _ _) as [ht|]; [|discriminate].
    intros [= <-]. exists ht. split; reflexivity. }
  destruct (mapGet expr "limit") as [[| |f| | | |]|]; try discriminate.
  - intros H. destruct (Hscan _ H) as (ht & Ht & Hr). eauto 8.
  - intros H. destruct (Hscan _ H) as (ht & Ht & Hr). eauto 8.
Qed.

(** C2.  Equality soundness.  When an eq lookup returns success, every
    identifier it added to the result names a document that can be read
    and whose resolution of the [in] path holds a value with the string
    form ([fmt.Sprint]) of the lookup value; an identifier whose document
    cannot be read or holds no such value is not added. *)
Theorem C2_equality_soundness lookupValue expr src result result' :
  Lookup lookupValue expr src result = Returned result' None ->
  exists path,
    mapGet expr "in" = Some (VArr path) /\
    result ⊆ result' /\
    (forall id, id ∈ result' -> id ∉ result ->
       verified src (List.map Sprint path) (Sprint lookupValue) id) /\
    (forall id, id ∉ result ->
       ~ verified src (List.map Sprint path) (Sprint lookupValue) id -> id ∉ result').
Proof.
  intros H. destruct (Lookup_success _ _ _ _ _ H) as (path & limit & ht & Hin & _ & ->).
  exists path. split; [exact Hin|]. split; [|split].
  - intros id Hid. apply foldl_verifyMatch_elem. left; exact Hid.
  - intros id Hid Hnew. apply foldl_verifyMatch_elem in Hid as [?|[_ Hv]]; [contradiction|exact Hv].
  - intros id Hnew Hbad Hid.
    apply foldl_verifyMatch_elem in Hid as [?|[_ Hv]]; contradiction.
Qed.

End EqualityLookup.

(** [{eq: 6, in: [n]}] on the sample collection finds document 2. *)
Lemma C2_equality_soundness_witness :
  let expr := [("eq", Sample.num 6); ("in", VArr [VStr "n"])] in
  Lookup (Sample.num 6) expr Sample.numbers ∅ = Returned {[ 2 ]} None /\
  exists path,
    mapGet expr "in" = Some (VArr path) /\
    ∅ ⊆ ({[ 2 ]} : gset Z) /\
    (forall id, id ∈ ({[ 2 ]} : gset Z) -> id ∉ (∅ : gset Z) ->
       verified Sample.numbers (List.map Sprint path) (Sprint (Sample.num 6)) id) /\
    (forall id, id ∉ (∅ : gset Z) ->
       ~ verified Sample.numbers (List.map Sprint path) (Sprint (Sample.num 6)) id ->
       id ∉ ({[ 2 ]} : gset Z)).
Proof.
  intros expr.
  assert (Hrun : Lookup (Sample.num 6) expr Sample.numbers ∅ = Returned {[ 2 ]} None)
    by (vm_compute; reflexivity).
  split; [exact Hrun|].
  exact (C2_equality_soundness (Sample.num 6) expr Sample.numbers ∅ {[ 2 ]} Hrun).
Defined.

(** ** Conversions of numeric parameters *)

Lemma wrap_in_int (z : Z) : in_int (wrap z).
Proof.
  unfold in_int, wrap, min_int, max_int.
  pose proof (Z.mod_pos_bound (z + 2 ^ 63) (2 ^ 64) ltac:(lia)). lia.
Qed.

Lemma wrap_id (z : Z) : in_int z -> wrap z = z.
Proof.
  unfold in_int, wrap, min_int, max_int. intros Hz.
  rewrite Z.mod_small; lia.
Qed.


Section Conversions.
Context `{env : GoEnv}.

Lemma int_of_float64_in_int (f : float64) : in_int (int_of_float64 f).
Proof.
  unfold int_of_float64. destruct (truncate f) as [z|]; [|apply wrap_in_int].
  destruct (andb _ _) eqn:Hz; [|apply wrap_in_int].
  apply andb_prop in Hz as [H1 H2]. apply Z.leb_le in H1, H2. split; assumption.
Qed.

Lemma int_of_float64_truncate (f : float64) (z : Z) :
  truncate f = Some z -> in_int z -> int_of_float64 f = z.
Proof.
  unfold int_of_float64, in_int. intros -> [H1 H2].
  apply Z.leb_le in H1, H2. rewrite H1, H2. reflexivity.
Qed.

End Conversions.

(** ** Unindexed paths *)

Section Unindexed.
Context `{env : GoEnv}.

Lemma Lookup_unindexed v expr src result path :
  mapGet expr "in" = Some (VArr path) -> limitValid expr ->
  String.concat INDEX_PATH_SEP (List.map Sprint path) ∉ indexPaths src ->
  Lookup v expr src result =
    Returned result
      (Some (ErrUnindexed (String.concat INDEX_PATH_SEP (List.map Sprint path)) expr)).
Proof.
  intros Hin Hlimit Hpath. unfold Lookup. rewrite Hin.
  destruct Hlimit as [->|[f ->]]; unfold LookupScan;
    (destruct (decide (_ ∈ indexPaths src)); [contradiction|reflexivity]).
Qed.

Lemma PathExistence_unindexed expr src result path :
  limitValid expr ->
  String.concat INDEX_PATH_SEP (List.map Sprint path) ∉ indexPaths src ->
  PathExistence (VArr path) expr src result =
    Returned result (Some (ErrUnindexedVec (List.map Sprint path) expr)).
Proof.
  intros Hlimit Hpath. unfold PathExistence.
  destruct Hlimit as [->|[f ->]]; unfold ExistenceScan;
    (destruct (decide (_ ∈ indexPaths src)); [contradiction|reflexivity]).
Qed.

Lemma IntRange_unindexed f expr src result path :
  mapGet expr "in" = Some (VArr path) -> limitValid expr -> upperBoundValid expr ->
  String.concat "," (List.map Sprint path) ∉ indexPaths src ->
  IntRange (VFloat f) expr src result =
    Returned result (Some (ErrUnindexedVec (List.map Sprint path) expr)).
Proof.
  intros Hin Hlimit Hto Hpath. unfold IntRange. rewrite Hin.
  assert (Hbounds : forall limit,
    RangeBounds (VFloat f) expr src (List.map Sprint path) limit result =
      Returned result (Some (ErrUnindexedVec (List.map Sprint path) expr))).
  { intros limit. unfold RangeBounds.
    destruct Hto as [[ft ->]|[-> [ft ->]]]; unfold RangeScan;
      (destruct (decide (_ ∈ indexPaths src)); [contradiction|reflexivity]). }
  destruct Hlimit as [->|[fl ->]]; apply Hbounds.
Qed.

(** C3 (as amended).  For a mapping node with a valid [limit] (absent or
    a number): an eq node with a sequence under [in], a has node whose
    value is a sequence, and an int-from or "int from" node with a number
    as lower bound, a sequence under [in] and a valid upper bound, return
    an UnindexedPath error and leave the result exactly as it was when
    the joined path (joined by INDEX_PATH_SEP for eq and has, by "," for
    the range) is not among the collection's indexed paths. *)
Theorem C3_unindexed_path (expr : object) (src : Col) (result : gset Z) :
  limitValid expr ->
  (forall v path,
     firstPresent expr operatorKeys = Some ("eq", v) ->
     mapGet expr "in" = Some (VArr path) ->
     String.concat INDEX_PATH_SEP (List.map Sprint path) ∉ indexPaths src ->
     exists e, EvalQuery (VObj expr) src result = Returned result (Some e) /\
               kind_of e = UnindexedPath) /\
  (forall path,
     firstPresent expr operatorKeys = Some ("has", VArr path) ->
     String.concat INDEX_PATH_SEP (List.map Sprint path) ∉ indexPaths src ->
     exists e, EvalQuery (VObj expr) src result = Returned result (Some e) /\
               kind_of e = UnindexedPath) /\
  (forall key f path,
     key = "int-from" \/ key = "int from" ->
     firstPresent expr operatorKeys = Some (key, VFloat f) ->
     mapGet expr "in" = Some (VArr path) ->
     upperBoundValid expr ->
     String.concat "," (List.map Sprint path) ∉ indexPaths src ->
     exists e, EvalQuery (VObj expr) src result = Returned result (Some e) /\
               kind_of e = UnindexedPath).
Proof.
  intros Hlimit. split; [|split].
  - intros v path Hop Hin Hpath. rewrite EvalQuery_obj, Hop.
    unfold applyOperator. cbn [decide]. rewrite decide_True by reflexivity.
    rewrite (Lookup_unindexed _ _ _ _ _ Hin Hlimit Hpath). eexists; split; reflexivity.
  - intros path Hop Hpath. rewrite EvalQuery_obj, Hop.
    unfold applyOperator. rewrite decide_False by discriminate.
    rewrite decide_True by reflexivity.
    rewrite (PathExistence_unindexed _ _ _ _ Hlimit Hpath). eexists; split; reflexivity.
  - intros key f path Hkey Hop Hin Hto Hpath. rewrite EvalQuery_obj, Hop.
    unfold applyOperator.
    destruct Hkey as [-> | ->]; repeat (rewrite decide_False by discriminate);
      rewrite (IntRange_unindexed _ _ _ _ _ Hin Hlimit Hto Hpath);
      eexists; split; reflexivity.
Qed.

End Unindexed.

(** The eq node [{eq: 1, in: ["a"], limit: "x"}] on a collection without
    indexes: its joined path is not indexed, yet the error it returns is
    the InvalidQuery of the malformed [limit], which is checked first. *)
Lemma C3_counterexample :
  let expr := [("eq", Sample.num 1); ("in", VArr [VStr "a"]); ("limit", VStr "x")] in
  firstPresent expr operatorKeys = Some ("eq", Sample.num 1) /\
  (String.concat INDEX_PATH_SEP (List.map Sprint [VStr "a"]) ∉ indexPaths Sample.unindexed) /\
  EvalQuery (VObj expr) Sample.unindexed ∅ = Returned ∅ (Some (ErrLimitNotNumber (VStr "x"))) /\
  kind_of (ErrLimitNotNumber (VStr "x")) = InvalidQuery /\
  InvalidQuery <> UnindexedPath.
Proof.
  intros expr. split; [reflexivity|]. split; [|split; [|split]].
  - apply not_elem_of_empty.
  - vm_compute. reflexivity.
  - reflexivity.
  - discriminate.
Qed.

(** [{int from: 1, int to: 3, in: ["a"]}] on a collection without indexes,
    evaluated on a result that holds 9. *)
Lemma C3_unindexed_path_witness :
  let expr := [("int from", Sample.num 1); ("int to", Sample.num 3); ("in", VArr [VStr "a"])] in
  limitValid expr /\
  firstPresent expr operatorKeys = Some ("int from", Sample.num 1) /\
  mapGet expr "in" = Some (VArr [VStr "a"]) /\
  upperBoundValid expr /\
  (String.concat "," (List.map Sprint [VStr "a"]) ∉ indexPaths Sample.unindexed) /\
  exists e, EvalQuery (VObj expr) Sample.unindexed {[ 9 ]} = Returned {[ 9 ]} (Some e) /\
            kind_of e = UnindexedPath.
Proof.
  intros expr.
  assert (Hlimit : limitValid expr) by (left; reflexivity).
  assert (Hto : upperBoundValid expr) by (right; split; [reflexivity|eexists; reflexivity]).
  assert (Hpath : String.concat "," (List.map Sprint [VStr "a"]) ∉ indexPaths Sample.unindexed)
    by apply not_elem_of_empty.
  split; [exact Hlimit|]. split; [reflexivity|]. split; [reflexivity|].
  split; [exact Hto|]. split; [exact Hpath|].
  destruct (C3_unindexed_path expr Sample.unindexed {[ 9 ]} Hlimit) as (_ & _ & Hrange).
  exact (Hrange "int from" (Sample.float_of_int 1) [VStr "a"] (or_intror eq_refl)
           eq_refl eq_refl Hto Hpath).
Defined.

(** ** Numeric parameters *)

Section NumericParameters.
Context `{env : GoEnv}.

Lemma scanParts_no_error src jointPath intLimit partDiv parts counter result r e :
  scanParts src jointPath intLimit partDiv parts counter result = Returned r e -> e = None.
Proof.
  revert counter result. induction parts as [|p parts IH]; intros counter result; simpl.
  - intros [= _ <-]. reflexivity.
  - destruct (tableAt src p jointPath); [|discriminate].
    destruct (scanChunks _ _ _ _ _ _); [apply IH|].
    intros [= _ <-]. reflexivity.
Qed.

Lemma LookupScan_error expr src vecPath intLimit str result r e :
  LookupScan expr src vecPath intLimit str result = Returned r (Some e) ->
  kind_of e = UnindexedPath /\ r = result.
Proof.
  unfold LookupScan. repeat case_match; try discriminate.
  intros [= <- <-]. split; reflexivity.
Qed.

Lemma ExistenceScan_error expr src vecPath intLimit result r e :
  ExistenceScan expr src vecPath intLimit result = Returned r (Some e) ->
  kind_of e = UnindexedPath /\ r = result.
Proof.
  unfold ExistenceScan. destruct (decide (_ ∈ indexPaths src)).
  - destruct (decide (numParts src = 0)); [discriminate|].
    intros H. apply scanParts_no_error in H. discriminate.
  - intros [= <- <-]. split; reflexivity.
Qed.

Lemma RangeScan_error expr src vecPath intLimit from to result r e :
  RangeScan expr src vecPath intLimit from to result = Returned r (Some e) ->
  kind_of e = UnindexedPath /\ r = result.
Proof.
  unfold RangeScan. repeat case_match; try discriminate.
  intros [= <- <-]. split; reflexivity.
Qed.


End NumericParameters.


(** ** Limits *)

Lemma size_insert_diff (id : Z) (r r0 : gset Z) :
  (size (({[ id ]} ∪ r) ∖ r0) <= S (size (r ∖ r0)))%nat.
Proof.
  transitivity (size ({[ id ]} ∪ (r ∖ r0))).
  - apply subseteq_size. set_solver.
  - rewrite size_union_alt, size_singleton.
    pose proof (subseteq_size ((r ∖ r0) ∖ {[ id ]}) (r ∖ r0) ltac:(set_solver)). lia.
Qed.

Lemma size_list_to_set_le (l : list Z) :
  (size (list_to_set l : gset Z) <= length l)%nat.
Proof.
  induction l as [|x l IH].
  - rewrite list_to_set_nil, size_empty. simpl. lia.
  - rewrite list_to_set_cons, size_union_alt, size_singleton. simpl length.
    pose proof (subseteq_size (list_to_set l ∖ {[ x ]}) (list_to_set l : gset Z)
                  ltac:(set_solver)). lia.
Qed.

Section Limits.
Context `{env : GoEnv}.

Lemma scanIDs_limit k r0 ids c r :
  0 < k <= max_int -> 0 <= c < k -> Z.of_nat (size (r ∖ r0)) <= c ->
  match scanIDs k ids c r with
  | Continue c' r' => 0 <= c' < k /\ Z.of_nat (size (r' ∖ r0)) <= c'
  | LimitReached r' => Z.of_nat (size (r' ∖ r0)) <= k
  end.
Proof.
  intros Hk. revert c r. induction ids as [|id ids IH]; intros c r Hc Hr; cbn [scanIDs].
  - split; assumption.
  - rewrite wrap_id by (unfold in_int, min_int; unfold max_int in *; lia).
    pose proof (size_insert_diff id r r0) as Hins.
    destruct (decide (c + 1 = k)) as [Heq|Hne]; [lia|].
    apply IH; lia.
Qed.

Lemma scanChunks_limit ht k partDiv r0 chunks c r :
  0 < k <= max_int -> 0 <= c < k -> Z.of_nat (size (r ∖ r0)) <= c ->
  match scanChunks ht k partDiv chunks c r with
  | Continue c' r' => 0 <= c' < k /\ Z.of_nat (size (r' ∖ r0)) <= c'
  | LimitReached r' => Z.of_nat (size (r' ∖ r0)) <= k
  end.
Proof.
  intros Hk. revert c r. induction chunks as [|i chunks IH]; intros c r Hc Hr;
    cbn [scanChunks].
  - split; assumption.
  - pose proof (scanIDs_limit k r0 (GetPartition ht i partDiv) c r Hk Hc Hr) as Hids.
    destruct (scanIDs k (GetPartition ht i partDiv) c r) as [c' r'|r']; [|exact Hids].
    destruct Hids as [Hc' Hr']. apply IH; assumption.
Qed.

Lemma scanParts_limit src jointPath k partDiv r0 parts c r r' e :
  0 < k <= max_int -> 0 <= c < k -> Z.of_nat (size (r ∖ r0)) <= c ->
  scanParts src jointPath k partDiv parts c r = Returned r' e ->
  Z.of_nat (size (r' ∖ r0)) <= k.
Proof.
  intros Hk. revert c r. induction parts as [|p parts IH]; intros c r Hc Hr;
    cbn [scanParts].
  - intros [= <- _]. lia.
  - destruct (tableAt src p jointPath) as [ht|]; [|discriminate].
    pose proof (scanChunks_limit ht k partDiv r0 (seqZ 0 partDiv) c r Hk Hc Hr) as Hch.
    destruct (scanChunks ht k partDiv (seqZ 0 partDiv) c r) as [c' r''|r''].
    + destruct Hch as [Hc' Hr']. apply IH; assumption.
    + intros [= <- _]. exact Hch.
Qed.

Lemma diff_self_size (r : gset Z) : Z.of_nat (size (r ∖ r)) = 0.
Proof. replace (r ∖ r) with (∅ : gset Z) by set_solver. rewrite size_empty. reflexivity. Qed.

Lemma ExistenceScan_limit expr src vecPath k result r e :
  0 < k <= max_int ->
  ExistenceScan expr src vecPath k result = Returned r e ->
  Z.of_nat (size (r ∖ result)) <= k.
Proof.
  intros Hk. unfold ExistenceScan. destruct (decide (_ ∈ indexPaths src)).
  - destruct (decide (numParts src = 0)); [discriminate|].
    apply scanParts_limit; [exact Hk|lia|]. rewrite diff_self_size. lia.
  - intros [= <- _]. rewrite diff_self_size. lia.
Qed.

Lemma foldl_verifyMatch_size src vecPath str vals result :
  (size (foldl (verifyMatch src vecPath str) result vals ∖ result) <= length vals)%nat.
Proof.
  transitivity (size (list_to_set vals : gset Z)); [|apply size_list_to_set_le].
  apply subseteq_size. intros id Hid.
  apply elem_of_difference in Hid as [Hid Hnew].
  apply foldl_verifyMatch_elem in Hid as [?|[Hin _]]; [contradiction|].
  apply elem_of_list_to_set, list_elem_of_In, Hin.
Qed.

Lemma LookupScan_limit expr src vecPath k str result r e :
  0 < k -> tablesHonourLimit src ->
  LookupScan expr src vecPath k str result = Returned r e ->
  Z.of_nat (size (r ∖ result)) <= k.
Proof.
  intros Hk Htables. unfold LookupScan. destruct (decide (_ ∈ indexPaths src)).
  - destruct (decide (numParts src = 0)); [discriminate|].
    destruct (tableAt src _ _) as [ht|] eqn:Hht; [|discriminate].
    intros [= <- _].
    pose proof (foldl_verifyMatch_size src vecPath str (Get ht (StrHash str) k) result).
    pose proof (Htables _ _ _ Hht (StrHash str) k Hk). lia.
  - intros [= <- _]. rewrite diff_self_size. lia.
Qed.

Lemma collectIDs_limit k r0 vals c r :
  0 < k <= max_int -> 0 <= c <= k -> Z.of_nat (size (r ∖ r0)) <= c ->
  let '(c', r') := collectIDs k vals c r in
  c <= c' <= k /\ Z.of_nat (size (r' ∖ r0)) <= c'.
Proof.
  intros Hk. revert c r. induction vals as [|id vals IH]; intros c r Hc Hr;
    cbn [collectIDs].
  - lia.
  - destruct (0 <? k) eqn:Hpos; [|apply Z.ltb_ge in Hpos; lia]. cbn [andb].
    destruct (c =? k) eqn:Hck; [lia|]. apply Z.eqb_neq in Hck.
    rewrite wrap_id by (unfold in_int, min_int; unfold max_int in *; lia).
    pose proof (size_insert_diff id r r0) as Hins.
    assert (Hc1 : 0 <= c + 1 <= k) by lia.
    assert (Hr1 : Z.of_nat (size (({[ id ]} ∪ r) ∖ r0)) <= c + 1) by lia.
    specialize (IH (c + 1) ({[ id ]} ∪ r) Hc1 Hr1).
    destruct (collectIDs k vals (c + 1) ({[ id ]} ∪ r)) as [c' r']. lia.
Qed.

(** The counter of [IntRange], the number of identifiers it has inserted,
    never passes a positive limit. *)
Lemma rangeLoop_limit src htPath k r0 values c r c' r' :
  0 < k <= max_int -> 0 <= c <= k -> Z.of_nat (size (r ∖ r0)) <= c ->
  rangeLoop src htPath k values c r = Some (c', r') ->
  c <= c' <= k /\ Z.of_nat (size (r' ∖ r0)) <= c'.
Proof.
  intros Hk. revert c r. induction values as [|v values IH]; intros c r Hc Hr;
    cbn [rangeLoop].
  - intros [= <- <-]. lia.
  - destruct (hashScan src htPath _ k) as [vals|]; [|discriminate].
    pose proof (collectIDs_limit k r0 vals c r Hk Hc Hr) as Hcol.
    destruct (collectIDs k vals c r) as [c1 r1]. destruct Hcol as [Hc1 Hr1].
    intros Hloop. specialize (IH c1 r1 ltac:(lia) Hr1 Hloop). lia.
Qed.

Lemma RangeScan_limit expr src vecPath k from to result r e :
  0 < k <= max_int ->
  RangeScan expr src vecPath k from to result = Returned r e ->
  Z.of_nat (size (r ∖ result)) <= k.
Proof.
  intros Hk. unfold RangeScan.
  assert (Hloop : forall values,
    match rangeLoop src (String.concat "," vecPath) k values 0 result with
    | Some (_, result') => Returned result' None
    | None => Aborted
    end = Returned r e -> Z.of_nat (size (r ∖ result)) <= k).
  { intros values. destruct (rangeLoop _ _ _ values 0 result) as [[c' r']|] eqn:Hl;
      [|discriminate].
    intros [= <- _].
    assert (H0 : 0 <= 0 <= k) by lia.
    assert (Hr0 : Z.of_nat (size (result ∖ result)) <= 0) by (rewrite diff_self_size; lia).
    pose proof (rangeLoop_limit _ _ _ result _ _ _ _ _ Hk H0 Hr0 Hl). lia. }
  destruct (decide (_ ∈ indexPaths src)).
  - destruct (decide (from < to)).
    + destruct (decide (to = max_int)); [discriminate|apply Hloop].
    + destruct (decide (to = min_int)); [discriminate|apply Hloop].
  - intros [= <- _]. rewrite diff_self_size. lia.
Qed.

(** C4.  Limit honoring.  With a [limit] that converts to [k > 0]: an eq
    lookup (over hash tables whose [Get] honours limits) and a has scan
    add at most [k] identifiers, so on an empty result they leave at most
    [k]; an int-range scan counts its insertions and never counts past
    [k], over the whole range of probed values, so it adds at most [k]
    identifiers too. *)
Theorem C4_limit_honoring (expr : object) (src : Col) (f : float64) (k : Z) :
  mapGet expr "limit" = Some (VFloat f) -> int_of_float64 f = k -> 0 < k ->
  (forall v result r e,
     tablesHonourLimit src ->
     Lookup v expr src result = Returned r e ->
     Z.of_nat (size (r ∖ result)) <= k /\ (result = ∅ -> Z.of_nat (size r) <= k)) /\
  (forall hasPath result r e,
     PathExistence hasPath expr src result = Returned r e ->
     Z.of_nat (size (r ∖ result)) <= k /\ (result = ∅ -> Z.of_nat (size r) <= k)) /\
  (forall intFrom result r e,
     IntRange intFrom expr src result = Returned r e ->
     Z.of_nat (size (r ∖ result)) <= k /\ (result = ∅ -> Z.of_nat (size r) <= k)) /\
  (forall htPath lookupValues result counter r,
     rangeLoop src htPath k lookupValues 0 result = Some (counter, r) ->
     0 <= counter <= k /\ Z.of_nat (size (r ∖ result)) <= counter).
Proof.
  intros Hlimit Hf Hpos.
  assert (Hk : 0 < k <= max_int).
  { pose proof (int_of_float64_in_int f) as [_ Hmax]. lia. }
  assert (Hempty : forall (r result : gset Z),
            Z.of_nat (size (r ∖ result)) <= k ->
            Z.of_nat (size (r ∖ result)) <= k /\ (result = ∅ -> Z.of_nat (size r) <= k)).
  { intros r result Hsize. split; [exact Hsize|]. intros ->.
    replace (r ∖ ∅) with r in Hsize by set_solver. exact Hsize. }
  split; [|split; [|split]].
  - intros v result r e Htables. unfold Lookup.
    destruct (mapGet expr "in") as [[| | | | |path|]|];
      try (intros [= <- _]; apply Hempty; rewrite diff_self_size; lia).
    rewrite Hlimit, Hf. intros H. apply Hempty.
    apply (LookupScan_limit _ _ _ _ _ _ _ _ Hpos Htables H).
  - intros hasPath result r e. unfold PathExistence.
    destruct hasPath as [| | | | |path|];
      try (intros [= <- _]; apply Hempty; rewrite diff_self_size; lia).
    rewrite Hlimit, Hf. intros H. apply Hempty.
    apply (ExistenceScan_limit _ _ _ _ _ _ _ Hk H).
  - intros intFrom result r e. unfold IntRange.
    destruct (mapGet expr "in") as [[| | | | |path|]|];
      try (intros [= <- _]; apply Hempty; rewrite diff_self_size; lia).
    rewrite Hlimit, Hf. unfold RangeBounds.
    repeat case_match;
      try (intros [= <- _]; apply Hempty; rewrite diff_self_size; lia);
      intros Hrun; apply Hempty; apply (RangeScan_limit _ _ _ _ _ _ _ _ _ Hk Hrun).
  - intros htPath lookupValues result counter r Hloop.
    assert (H0 : 0 <= 0 <= k) by lia.
    assert (Hr0 : Z.of_nat (size (result ∖ result)) <= 0) by (rewrite diff_self_size; lia).
    pose proof (rangeLoop_limit _ _ _ result _ _ _ _ _ Hk H0 Hr0 Hloop). lia.
Qed.

End Limits.

(** The sample hash tables honour limits. *)
Lemma tableOf_honoursLimit (entries : list (Z * Z)) :
  honoursLimit (Sample.tableOf entries).
Proof.
  intros key limit Hlimit. cbn [Sample.tableOf Get].
  destruct (0 <? limit) eqn:Hpos; [|apply Z.ltb_ge in Hpos; lia].
  rewrite length_take. lia.
Qed.

Lemma collection_honoursLimit parts documents paths :
  tablesHonourLimit (Sample.collection parts documents paths).
Proof.
  intros num path ht. unfold tableAt. destruct (num <? 0); [discriminate|].
  cbn [hts Sample.collection]. rewrite list_lookup_fmap.
  destruct (seqZ 0 parts !! Z.to_nat num) as [i|]; [|discriminate]. cbn [fmap option_fmap option_map].
  unfold Sample.partitionOf. intros Hht.
  apply elem_of_list_to_map_2, list_elem_of_In, in_map_iff in Hht as (p & [= _ <-] & _).
  apply tableOf_honoursLimit.
Qed.

(** A has scan and an eq lookup with [limit] 2 on the sample collection,
    whose index on [n] holds four identifiers. *)
Lemma C4_limit_honoring_witness :
  let f := Sample.float_of_int 2 in
  let expr := [("has", VArr [VStr "n"]); ("in", VArr [VStr "n"]); ("limit", VFloat f)] in
  mapGet expr "limit" = Some (VFloat f) /\ int_of_float64 f = 2 /\ 0 < 2 /\
  tablesHonourLimit Sample.numbers /\
  PathExistence (VArr [VStr "n"]) expr Sample.numbers ∅ = Returned {[ 1; 2 ]} None /\
  Z.of_nat (size ({[ 1; 2 ]} : gset Z)) <= 2 /\
  Lookup (Sample.num 6) expr Sample.numbers ∅ = Returned {[ 2 ]} None /\
  Z.of_nat (size ({[ 2 ]} : gset Z)) <= 2.
Proof.
  intros f expr.
  assert (Hpos : 0 < 2) by lia.
  assert (Htables : tablesHonourLimit Sample.numbers) by apply collection_honoursLimit.
  assert (Hhas : PathExistence (VArr [VStr "n"]) expr Sample.numbers ∅
                 = Returned {[ 1; 2 ]} None) by (vm_compute; reflexivity).
  assert (Heq : Lookup (Sample.num 6) expr Sample.numbers ∅ = Returned {[ 2 ]} None)
    by (vm_compute; reflexivity).
  destruct (C4_limit_honoring expr Sample.numbers f 2 eq_refl eq_refl Hpos)
    as (Hlookup & Hscan & _).
  split; [reflexivity|]. split; [reflexivity|]. split; [exact Hpos|].
  split; [exact Htables|]. split; [exact Hhas|].
  split; [apply (Hscan _ _ _ _ Hhas); reflexivity|].
  split; [exact Heq|]. apply (Hlookup _ _ _ _ Htables Heq); reflexivity.
Defined.

(** ** Integer ranges *)

Lemma forwardValues_lookup (from to : Z) (i : nat) :
  Z.of_nat i <= to - from -> forwardValues from to !! i = Some (from + Z.of_nat i).
Proof. intros Hi. unfold forwardValues. apply lookup_seqZ_lt. lia. Qed.

Lemma forwardValues_length (from to : Z) :
  length (forwardValues from to) = Z.to_nat (to - from + 1).
Proof. unfold forwardValues. apply length_seqZ. Qed.

Lemma backwardValues_lookup (from to : Z) (i : nat) :
  Z.of_nat i <= from - to -> backwardValues from to !! i = Some (from - Z.of_nat i).
Proof.
  intros Hi. unfold backwardValues.
  change (List.map (fun j => from - j) (seqZ 0 (from - to + 1)))
    with ((fun j => from - j) <$> seqZ 0 (from - to + 1)).
  rewrite list_lookup_fmap, lookup_seqZ_lt by lia. reflexivity.
Qed.

Lemma backwardValues_length (from to : Z) :
  length (backwardValues from to) = Z.to_nat (from - to + 1).
Proof. unfold backwardValues. rewrite length_map. apply length_seqZ. Qed.

Lemma backwardValues_single (from : Z) : backwardValues from from = [from].
Proof.
  unfold backwardValues. replace (from - from + 1) with 1 by lia.
  rewrite seqZ_cons by lia. rewrite seqZ_nil by lia.
  cbn [List.map]. f_equal. lia.
Qed.

(** The order of the walk: ascending by steps of one when [from < to],
    descending by steps of one when [from > to], the single value
    [from] when [from = to]; in every case the walk visits exactly the
    integers between the two bounds. *)
Lemma probedValues_order (from to : Z) :
  (from < to -> forall i : nat, Z.of_nat i <= to - from ->
     probedValues from to !! i = Some (from + Z.of_nat i)) /\
  (from > to -> forall i : nat, Z.of_nat i <= from - to ->
     probedValues from to !! i = Some (from - Z.of_nat i)) /\
  (from = to -> probedValues from to = [from]) /\
  length (probedValues from to) = Z.to_nat (Z.abs (to - from) + 1) /\
  (forall v, In v (probedValues from to) <-> Z.min from to <= v <= Z.max from to).
Proof.
  unfold probedValues. split; [|split; [|split; [|split]]].
  - intros Hlt i Hi. rewrite decide_True by lia. apply forwardValues_lookup, Hi.
  - intros Hgt i Hi. rewrite decide_False by lia. apply backwardValues_lookup, Hi.
  - intros ->. rewrite decide_False by lia. apply backwardValues_single.
  - destruct (decide (from < to)).
    + rewrite forwardValues_length. f_equal. lia.
    + rewrite backwardValues_length. f_equal. lia.
  - intros v. destruct (decide (from < to)).
    + unfold forwardValues. rewrite <- list_elem_of_In, elem_of_seqZ. lia.
    + unfold backwardValues. rewrite in_map_iff. split.
      * intros (j & <- & Hj). apply list_elem_of_In, elem_of_seqZ in Hj. lia.
      * intros Hv. exists (from - v). split; [lia|].
        apply list_elem_of_In, elem_of_seqZ. lia.
Qed.

Section RangeDecomposition.
Context `{env : GoEnv}.

Lemma LookupScan_indexed expr src vecPath limit str result :
  String.concat INDEX_PATH_SEP vecPath ∈ indexPaths src ->
  LookupScan expr src vecPath limit str result =
    match hashScan src (String.concat INDEX_PATH_SEP vecPath) (StrHash str) limit with
    | Some vals => Returned (foldl (verifyMatch src vecPath str) result vals) None
    | None => Aborted
    end.
Proof.
  intros Hindexed. unfold LookupScan, hashScan. rewrite decide_True by exact Hindexed.
  destruct (decide (numParts src = 0)); [reflexivity|].
  destruct (tableAt src _ _); reflexivity.
Qed.

Lemma collectIDs_unlimited vals c r :
  snd (collectIDs 0 vals c r) = list_to_set vals ∪ r.
Proof.
  revert c r. induction vals as [|id vals IH]; intros c r; cbn [collectIDs].
  - rewrite list_to_set_nil. set_solver.
  - cbn [Z.ltb Z.compare andb]. rewrite IH, list_to_set_cons. set_solver.
Qed.

Lemma foldl_verifyMatch_clean src vecPath str vals result :
  (forall id, In id vals -> verified src vecPath str id) ->
  foldl (verifyMatch src vecPath str) result vals = list_to_set vals ∪ result.
Proof.
  intros Hclean. apply set_eq. intros id.
  rewrite foldl_verifyMatch_elem, elem_of_union, elem_of_list_to_set, list_elem_of_In.
  split.
  - intros [?|[Hin _]]; auto.
  - intros [Hin|?]; auto.
Qed.

Lemma EvalQuery_eqNode p v src result :
  EvalQuery (eqNode p v) src result =
    LookupScan [("eq", v); ("in", VArr p)] src (List.map Sprint p) 0 (Sprint v) result.
Proof. unfold eqNode. rewrite EvalQuery_obj. reflexivity. Qed.

(** The union of the eq probes over a list of integers and the loop of
    the range scan over the same list end alike. *)
Lemma union_rangeLoop src p (operand : Z -> value) lookupValues :
  let vecPath := List.map Sprint p in
  String.concat INDEX_PATH_SEP vecPath = String.concat "," vecPath ->
  String.concat "," vecPath ∈ indexPaths src ->
  (forall v, In v lookupValues -> Sprint (operand v) = pretty v) ->
  (forall v, In v lookupValues -> cleanAt src (String.concat "," vecPath) vecPath v) ->
  forall counter result,
  EvalUnion EvalQuery (List.map (fun v => eqNode p (operand v)) lookupValues) src result =
    match rangeLoop src (String.concat "," vecPath) 0 lookupValues counter result with
    | Some (_, result') => Returned result' None
    | None => Aborted
    end.
Proof.
  intros vecPath Hsep Hindexed.
  induction lookupValues as [|v rest IH]; intros Hstr Hclean counter result;
    cbn [List.map EvalUnion rangeLoop]; [reflexivity|].
  rewrite EvalQuery_eqNode. fold vecPath.
  rewrite LookupScan_indexed by (rewrite Hsep; exact Hindexed).
  rewrite Hsep, (Hstr v (or_introl eq_refl)). cbn [Sprint].
  destruct (hashScan src (String.concat "," vecPath) (StrHash (pretty v)) 0)
    as [vals|] eqn:Hscan; [|reflexivity].
  rewrite (foldl_verifyMatch_clean _ _ _ _ _ (Hclean v (or_introl eq_refl) vals Hscan)).
  pose proof (collectIDs_unlimited vals counter result) as Hcollect.
  destruct (collectIDs 0 vals counter result) as [counter' result']. cbn [snd] in Hcollect.
  subst result'. apply IH.
  - intros w Hw. apply Hstr. right; exact Hw.
  - intros w Hw. apply Hclean. right; exact Hw.
Qed.

Lemma EvalQuery_rangeNode p ffrom fto src result :
  EvalQuery (rangeNode p ffrom fto) src result =
    RangeScan [("int-from", VFloat ffrom); ("int-to", VFloat fto); ("in", VArr p)] src
              (List.map Sprint p) 0 (int_of_float64 ffrom) (int_of_float64 fto) result.
Proof. unfold rangeNode. rewrite EvalQuery_obj. reflexivity. Qed.

(** Range decomposition away from the ends of [int].  For bounds
    [a <= b] strictly inside the range of [int], a path whose joined form
    is indexed, eq operands whose string form is the decimal numeral the
    range scan hashes, and an index free of collisions and stale entries
    on the range, the range node and the union of the eq nodes of
    [a], [a+1], ..., [b] end alike: with the same result set, or both in a
    panic of the same probe. *)
Lemma range_decomposition src p ffrom fto (operand : Z -> value) result :
  let vecPath := List.map Sprint p in
  let a := int_of_float64 ffrom in
  let b := int_of_float64 fto in
  a <= b -> min_int < a -> b < max_int ->
  String.concat INDEX_PATH_SEP vecPath = String.concat "," vecPath ->
  String.concat "," vecPath ∈ indexPaths src ->
  (forall v, a <= v <= b -> Sprint (operand v) = pretty v) ->
  (forall v, a <= v <= b -> cleanAt src (String.concat "," vecPath) vecPath v) ->
  EvalQuery (rangeNode p ffrom fto) src result =
  EvalQuery (VArr (List.map (fun v => eqNode p (operand v)) (seqZ a (b - a + 1)))) src result.
Proof.
  intros vecPath a b Hab Hmin Hmax Hsep Hindexed Hstr Hclean.
  rewrite EvalQuery_rangeNode, EvalQuery_arr. fold vecPath a b.
  assert (Hin : forall v, In v (seqZ a (b - a + 1)) -> a <= v <= b).
  { intros v Hv. apply list_elem_of_In, elem_of_seqZ in Hv. lia. }
  rewrite (union_rangeLoop src p operand (seqZ a (b - a + 1)) Hsep Hindexed
             (fun v Hv => Hstr v (Hin v Hv)) (fun v Hv => Hclean v (Hin v Hv)) 0 result).
  unfold RangeScan. fold vecPath. rewrite decide_True by exact Hindexed.
  destruct (decide (a < b)).
  - rewrite decide_False by lia. reflexivity.
  - rewrite decide_False by lia.
    assert (b = a) as -> by lia. rewrite backwardValues_single.
    replace (a - a + 1) with 1 by lia. reflexivity.
Qed.

End RangeDecomposition.

Section RangeAtTheEnds.
Context `{env : GoEnv}.

(** C5 at its failing input.  The number -9223372036854775808 converts
    exactly to the smallest [int].  The range node with this number as
    both bounds takes the backward scan, whose loop condition
    [lookupValue >= to] holds for every [int], so the call never returns;
    the union of the one eq node of that value returns a result set. *)
Theorem C5_range_never_returns_at_min_int (src : Col) (p : list value) (vals : list Z)
    (result : gset Z) :
  let f := S754_finite true 1 63 in
  let vecPath := List.map Sprint p in
  String.concat "," vecPath ∈ indexPaths src ->
  String.concat INDEX_PATH_SEP vecPath ∈ indexPaths src ->
  hashScan src (String.concat INDEX_PATH_SEP vecPath) (StrHash (Sprint (VFloat f))) 0
    = Some vals ->
  truncate f = Some (- 9223372036854775808) /\
  int_of_float64 f = min_int /\
  EvalQuery (rangeNode p f f) src result = Aborted /\
  exists r, EvalQuery (VArr [eqNode p (VFloat f)]) src result = Returned r None.
Proof.
  intros f vecPath Hrange Heq Hscan.
  assert (Hf : int_of_float64 f = min_int).
  { apply int_of_float64_truncate; [reflexivity|].
    unfold in_int, min_int, max_int. lia. }
  split; [reflexivity|]. split; [exact Hf|]. split.
  - rewrite EvalQuery_rangeNode. unfold RangeScan. fold vecPath.
    rewrite decide_True by exact Hrange. rewrite Hf.
    rewrite decide_False by lia. rewrite decide_True by reflexivity. reflexivity.
  - rewrite EvalQuery_arr. cbn [EvalUnion]. rewrite EvalQuery_eqNode. fold vecPath.
    rewrite (LookupScan_indexed _ _ _ _ _ _ Heq), Hscan. eexists; reflexivity.
Qed.

End RangeAtTheEnds.

(** The range and the eq node of the smallest [int] on the sample
    collection. *)
Lemma C5_range_never_returns_at_min_int_witness :
  let f := S754_finite true 1 63 in
  let p := [VStr "n"] in
  (String.concat "," (List.map Sprint p) ∈ indexPaths Sample.numbers) /\
  (String.concat INDEX_PATH_SEP (List.map Sprint p) ∈ indexPaths Sample.numbers) /\
  hashScan Sample.numbers (String.concat INDEX_PATH_SEP (List.map Sprint p))
           (StrHash (Sprint (VFloat f))) 0 = Some [] /\
  EvalQuery (rangeNode p f f) Sample.numbers ∅ = Aborted /\
  exists r, EvalQuery (VArr [eqNode p (VFloat f)]) Sample.numbers ∅ = Returned r None.
Proof.
  intros f p.
  assert (Hindexed : String.concat "," (List.map Sprint p) ∈ indexPaths Sample.numbers).
  { cbn. set_solver. }
  assert (Hscan : hashScan Sample.numbers (String.concat INDEX_PATH_SEP (List.map Sprint p))
                    (StrHash (Sprint (VFloat f))) 0 = Some [])
    by (vm_compute; reflexivity).
  destruct (C5_range_never_returns_at_min_int Sample.numbers p [] ∅ Hindexed Hindexed Hscan)
    as (_ & _ & Habort & Hunion).
  split; [exact Hindexed|]. split; [exact Hindexed|]. split; [exact Hscan|].
  split; [exact Habort|exact Hunion].
Defined.

(** The range node [{int-from: 6, int-to: 8, in: ["n"]}] on the sample
    collection: the hypotheses of the decomposition hold there, and both
    sides evaluate to [{2, 3}]. *)
Lemma range_decomposition_sample :
  let p := [VStr "n"] in
  EvalQuery (rangeNode p (Sample.float_of_int 6) (Sample.float_of_int 8)) Sample.numbers ∅ =
  EvalQuery (VArr (List.map (fun v => eqNode p (Sample.num v)) (seqZ 6 (8 - 6 + 1))))
            Sample.numbers ∅ /\
  EvalQuery (rangeNode p (Sample.float_of_int 6) (Sample.float_of_int 8)) Sample.numbers ∅ =
  Returned {[ 2; 3 ]} None.
Proof.
  intros p. split; [|vm_compute; reflexivity].
  apply (range_decomposition Sample.numbers p (Sample.float_of_int 6) (Sample.float_of_int 8)
           Sample.num ∅).
  - vm_compute. discriminate.
  - vm_compute. reflexivity.
  - vm_compute. reflexivity.
  - reflexivity.
  - cbn. set_solver.
  - change (int_of_float64 (Sample.float_of_int 6)) with 6.
    change (int_of_float64 (Sample.float_of_int 8)) with 8.
    intros v Hv. assert (v = 6 \/ v = 7 \/ v = 8) as [->|[->| ->]] by lia;
      vm_compute; reflexivity.
  - change (int_of_float64 (Sample.float_of_int 6)) with 6.
    change (int_of_float64 (Sample.float_of_int 8)) with 8.
    intros v Hv vals Hscan id Hid.
    assert (v = 6 \/ v = 7 \/ v = 8) as [->|[->| ->]] by lia;
      vm_compute in Hscan; injection Hscan as <-.
    + destruct Hid as [<-|[]]. eexists. split; [vm_compute; reflexivity|].
      eexists. split; [left; reflexivity|vm_compute; reflexivity].
    + destruct Hid as [<-|[]]. eexists. split; [vm_compute; reflexivity|].
      eexists. split; [left; reflexivity|vm_compute; reflexivity].
    + destruct Hid.
Qed.

(** A document holding the number 1000000, decoded from JSON as a
    [float64], is indexed under the string form of that float, "1e+06";
    the eq node hashes the same string and finds the document, the range
    scan hashes the decimal numeral "1000000" and does not. *)
Lemma range_misses_exponent_form_sample :
  let p := [VStr "n"] in
  let f := Sample.float_of_int 1000000 in
  Sprint (VFloat f) = "1e+06" /\ Sprint (VInt 1000000) = "1000000" /\
  EvalQuery (eqNode p (VFloat f)) Sample.million ∅ = Returned {[ 1 ]} None /\
  EvalQuery (rangeNode p f f) Sample.million ∅ = Returned ∅ None.
Proof. repeat split; vm_compute; reflexivity. Qed.

(** ** Sequences without a complement on the accumulator *)

Lemma accumulating_error (r0 : gset Z -> gset Z) (err : option error) :
  (forall r, r0 r = r) -> accumulating (fun r => Returned (r0 r) err).
Proof.
  intros Hr0. right. exists true, ∅, err. intros r. rewrite Hr0. f_equal. set_solver.
Qed.

Section Accumulating.
Context `{env : GoEnv}.

Lemma Lookup_accumulating v expr src : accumulating (Lookup v expr src).
Proof.
  assert (Hscan : forall vecPath limit str,
            accumulating (LookupScan expr src vecPath limit str)).
  { intros vecPath limit str. unfold LookupScan.
    destruct (decide (_ ∈ indexPaths src)); [|apply (accumulating_error (fun r => r)); auto].
    destruct (decide (numParts src = 0)); [left; reflexivity|].
    destruct (tableAt src _ _) as [ht|]; [|left; reflexivity].
    right. exists true, (foldl (verifyMatch src vecPath str) ∅
                            (Get ht (StrHash str) limit)), None.
    intros r. f_equal. apply set_eq. intros id.
    rewrite elem_of_union, !foldl_verifyMatch_elem. set_solver. }
  unfold Lookup.
  destruct (mapGet expr "in") as [[| | | | |path|]|];
    try (apply (accumulating_error (fun r => r)); auto).
  destruct (mapGet expr "limit") as [[| |f| | | |]|];
    try (apply (accumulating_error (fun r => r)); auto); apply Hscan.
Qed.

Lemma scanIDs_add k ids c r r0 :
  scanIDs k ids c (r ∪ r0) = scanAdd r (scanIDs k ids c r0).
Proof.
  revert c r0. induction ids as [|id ids IH]; intros c r0; cbn [scanIDs]; [reflexivity|].
  replace ({[ id ]} ∪ (r ∪ r0)) with (r ∪ ({[ id ]} ∪ r0)) by set_solver.
  destruct (decide (wrap (c + 1) = k)); [reflexivity|apply IH].
Qed.

Lemma scanChunks_add ht k partDiv chunks c r r0 :
  scanChunks ht k partDiv chunks c (r ∪ r0) = scanAdd r (scanChunks ht k partDiv chunks c r0).
Proof.
  revert c r0. induction chunks as [|i chunks IH]; intros c r0; cbn [scanChunks];
    [reflexivity|].
  rewrite scanIDs_add.
  destruct (scanIDs k (GetPartition ht i partDiv) c r0) as [c' r'|r']; cbn [scanAdd];
    [apply IH|reflexivity].
Qed.

Lemma scanParts_add src jointPath k partDiv parts c r r0 :
  scanParts src jointPath k partDiv parts c (r ∪ r0) =
    match scanParts src jointPath k partDiv parts c r0 with
    | Returned r' err => Returned (r ∪ r') err
    | other => other
    end.
Proof.
  revert c r0. induction parts as [|part parts IH]; intros c r0; cbn [scanParts];
    [reflexivity|].
  destruct (tableAt src part jointPath) as [ht|]; [|reflexivity].
  rewrite scanChunks_add.
  destruct (scanChunks ht k partDiv (seqZ 0 partDiv) c r0) as [c' r'|r']; cbn [scanAdd];
    [apply IH|reflexivity].
Qed.

Lemma PathExistence_accumulating hasPath expr src :
  accumulating (PathExistence hasPath expr src).
Proof.
  assert (Hscan : forall vecPath limit, accumulating (ExistenceScan expr src vecPath limit)).
  { intros vecPath limit. unfold ExistenceScan.
    destruct (decide (_ ∈ indexPaths src)); [|apply (accumulating_error (fun r => r)); auto].
    destruct (decide (numParts src = 0)); [left; reflexivity|].
    set (partDiv := if decide (_ = 0) then _ else _).
    set (jointPath := String.concat INDEX_PATH_SEP vecPath).
    pose proof (scanParts_fuel src jointPath limit partDiv (seqZ 0 (numParts src)) 0 ∅)
      as Hfuel.
    destruct (scanParts src jointPath limit partDiv (seqZ 0 (numParts src)) 0 ∅)
      as [ids err| |] eqn:Hrun; [| |contradiction].
    - right. exists true, ids, err. intros r.
      replace r with (r ∪ ∅) at 1 by set_solver. rewrite scanParts_add, Hrun. reflexivity.
    - left. intros r.
      replace r with (r ∪ ∅) by set_solver. rewrite scanParts_add, Hrun. reflexivity. }
  unfold PathExistence.
  destruct hasPath as [| | | | |path|];
    try (apply (accumulating_error (fun r => r)); auto).
  destruct (mapGet expr "limit") as [[| |f| | | |]|];
    try (apply (accumulating_error (fun r => r)); auto); apply Hscan.
Qed.

Lemma collectIDs_add k vals c r r0 :
  collectIDs k vals c (r ∪ r0) =
    (fst (collectIDs k vals c r0), r ∪ snd (collectIDs k vals c r0)).
Proof.
  revert c r0. induction vals as [|id vals IH]; intros c r0; cbn [collectIDs];
    [reflexivity|].
  destruct ((0 <? k) && (c =? k)); [reflexivity|].
  replace ({[ id ]} ∪ (r ∪ r0)) with (r ∪ ({[ id ]} ∪ r0)) by set_solver. apply IH.
Qed.

Lemma rangeLoop_add src htPath k lookupValues c r r0 :
  rangeLoop src htPath k lookupValues c (r ∪ r0) =
    match rangeLoop src htPath k lookupValues c r0 with
    | Some (c', r') => Some (c', r ∪ r')
    | None => None
    end.
Proof.
  revert c r0. induction lookupValues as [|v rest IH]; intros c r0; cbn [rangeLoop];
    [reflexivity|].
  destruct (hashScan src htPath _ k) as [vals|]; [|reflexivity].
  rewrite collectIDs_add.
  destruct (collectIDs k vals c r0) as [c' r']. cbn [fst snd]. apply IH.
Qed.

Lemma IntRange_accumulating intFrom expr src : accumulating (IntRange intFrom expr src).
Proof.
  assert (Hloop : forall htPath limit lookupValues,
    accumulating (fun r =>
      match rangeLoop src htPath limit lookupValues 0 r with
      | Some (_, result') => Returned result' None
      | None => Aborted
      end)).
  { intros htPath limit lookupValues.
    destruct (rangeLoop src htPath limit lookupValues 0 ∅) as [[c ids]|] eqn:Hrun.
    - right. exists true, ids, None. intros r.
      replace r with (r ∪ ∅) at 1 by set_solver. rewrite rangeLoop_add, Hrun. reflexivity.
    - left. intros r.
      replace r with (r ∪ ∅) by set_solver. rewrite rangeLoop_add, Hrun. reflexivity. }
  assert (Hscan : forall vecPath limit from to,
            accumulating (RangeScan expr src vecPath limit from to)).
  { intros vecPath limit from to. unfold RangeScan.
    destruct (decide (_ ∈ indexPaths src)); [|apply (accumulating_error (fun r => r)); auto].
    destruct (decide (from < to)).
    - destruct (decide (to = max_int)); [left; reflexivity|apply Hloop].
    - destruct (decide (to = min_int)); [left; reflexivity|apply Hloop]. }
  assert (Hbounds : forall vecPath limit,
            accumulating (RangeBounds intFrom expr src vecPath limit)).
  { intros vecPath limit. unfold RangeBounds.
    destruct intFrom as [| |ffrom| | | |];
      try (apply (accumulating_error (fun r => r)); auto).
    destruct (mapGet expr "int-to") as [[| |fto| | | |]|];
      try (apply (accumulating_error (fun r => r)); auto); try apply Hscan.
    destruct (mapGet expr "int to") as [[| |fto| | | |]|];
      try (apply (accumulating_error (fun r => r)); auto); apply Hscan. }
  unfold IntRange.
  destruct (mapGet expr "in") as [[| | | | |path|]|];
    try (apply (accumulating_error (fun r => r)); auto).
  destruct (mapGet expr "limit") as [[| |f| | | |]|];
    try (apply (accumulating_error (fun r => r)); auto); apply Hbounds.
Qed.

(** An n node replaces the result or leaves it alone; it never combines
    it with anything. *)
Lemma Intersect_accumulating subExprs src :
  accumulating (Intersect EvalQuery subExprs src).
Proof.
  destruct subExprs as [| | | | |l|];
    try (apply (accumulating_error (fun r => r)); auto).
  destruct l as [|q qs]; [apply (accumulating_error (fun r => r)); auto|].
  pose proof (EvalQuery_total q src ∅) as Hq.
  destruct (EvalQuery q src ∅) as [S [err|]| |] eqn:Hrun; [| | |contradiction].
  - right. exists true, ∅, (Some err). intros r.
    cbn [Intersect IntersectLoop]. rewrite Hrun. f_equal. set_solver.
  - pose proof (IntersectLoop_fuel EvalQuery qs src
                  (fun x s r _ => EvalQuery_total x s r) false S) as Hfuel.
    destruct (IntersectLoop EvalQuery qs src false S) as [ids err| |] eqn:Hloop;
      [| |contradiction].
    + right. exists false, ids, err. intros r.
      cbn [Intersect IntersectLoop]. rewrite Hrun, Hloop. f_equal. set_solver.
    + left. intros r. cbn [Intersect IntersectLoop]. rewrite Hrun, Hloop. reflexivity.
  - left. intros r. cbn [Intersect IntersectLoop]. rewrite Hrun. reflexivity.
Qed.

Lemma EvalUnion_accumulating l src :
  Forall (fun q => accumulating (EvalQuery q src)) l ->
  accumulating (EvalUnion EvalQuery l src).
Proof.
  induction 1 as [|q l Hq _ IH]; cbn [EvalUnion].
  - apply (accumulating_error (fun r => r)); auto.
  - destruct Hq as [Hq|(keep & ids & err & Hq)].
    + left. intros r. rewrite Hq. reflexivity.
    + destruct err as [e|].
      * right. exists keep, ids, (Some e). intros r. rewrite Hq. reflexivity.
      * destruct IH as [IH|(keep' & ids' & err' & IH)].
        -- left. intros r. rewrite Hq. apply IH.
        -- right. exists (keep' && keep), ((if keep' then ids else ∅) ∪ ids'), err'.
           intros r. rewrite Hq, IH. f_equal. destruct keep, keep'; set_solver.
Qed.

Lemma EvalQuery_accumulating (n : nat) (q : value) (src : Col) :
  (depth q <= n)%nat -> complementFree q = true -> accumulating (EvalQuery q src).
Proof.
  revert q. induction n as [|n IH]; intros q Hdepth Hfree.
  - destruct q as [| | | |s|l|m]; try (cbn in Hdepth; lia);
      try (right; exists true, ∅, None; intros r; rewrite EvalQuery_unfold;
           cbn [EvalQueryStep]; f_equal; set_solver).
    destruct (decide (s = "all")) as [->|Hs].
    + right. exists true, (dom (docs src)), None. intros r. rewrite EvalQuery_all.
      f_equal. set_solver.
    + destruct (ParseInt s) as [id|] eqn:Hid.
      * right. exists true, {[ id ]}, None. intros r.
        rewrite (EvalQuery_str s src r Hs), Hid. f_equal. set_solver.
      * right. exists true, ∅, (Some (ErrNotDocID s)). intros r.
        rewrite (EvalQuery_str s src r Hs), Hid. f_equal. set_solver.
  - destruct q as [| | | |s|l|m];
      try (apply IH; [cbn; lia|exact Hfree]).
    + assert (Hl : Forall (fun x => accumulating (EvalQuery x src)) l).
      { apply Forall_forall. intros x Hx. apply list_elem_of_In in Hx. apply IH.
        - pose proof (depth_elem l x Hx). lia.
        - cbn [complementFree] in Hfree. rewrite forallb_forall in Hfree. apply Hfree, Hx. }
      destruct (EvalUnion_accumulating l src Hl) as [Hu|(keep & ids & err & Hu)].
      * left. intros r. rewrite EvalQuery_arr. apply Hu.
      * right. exists keep, ids, err. intros r. rewrite EvalQuery_arr. apply Hu.
    + cbn [complementFree] in Hfree.
      assert (Hop : forall op : gset Z -> outcome,
                (forall r, EvalQuery (VObj m) src r = op r) -> accumulating op ->
                accumulating (EvalQuery (VObj m) src)).
      { intros op Heq [Hop|(keep & ids & err & Hop)].
        - left. intros r. rewrite Heq. apply Hop.
        - right. exists keep, ids, err. intros r. rewrite Heq. apply Hop. }
      destruct (firstPresent m operatorKeys) as [[key v]|] eqn:Hfirst.
      * assert (Hkey : In key operatorKeys).
        { apply firstPresent_Some in Hfirst as (before & after & -> & _).
          apply in_or_app. right. left. reflexivity. }
        assert (Hrun : forall r, EvalQuery (VObj m) src r = applyOperator key v m src r)
          by (intros r; rewrite EvalQuery_obj, Hfirst; reflexivity).
        cbn [operatorKeys In] in Hkey.
        destruct Hkey as [<-|[<-|[<-|[<-|[<-|[<-|[]]]]]]].
        -- apply (Hop _ Hrun), Lookup_accumulating.
        -- apply (Hop _ Hrun), PathExistence_accumulating.
        -- apply (Hop _ Hrun), Intersect_accumulating.
        -- discriminate Hfree.
        -- apply (Hop _ Hrun), IntRange_accumulating.
        -- apply (Hop _ Hrun), IntRange_accumulating.
      * apply (Hop (fun r => Returned r (Some (ErrNoOperation m)))).
        -- intros r. rewrite EvalQuery_obj, Hfirst. reflexivity.
        -- apply (accumulating_error (fun r => r)); auto.
Qed.

(** Union idempotence where no complement works on the accumulator: for a
    query that is not a c node and has no c node among the elements of its
    sequences, the sequence [[q, q]] and [q] alone end alike on an empty
    result. *)
Lemma union_idempotent_complement_free (q : value) (src : Col) :
  complementFree q = true ->
  EvalQuery (VArr [q; q]) src ∅ = EvalQuery q src ∅.
Proof.
  intros Hfree. rewrite EvalQuery_arr. cbn [EvalUnion].
  destruct (EvalQuery_accumulating (depth q) q src (le_n _) Hfree)
    as [Hq|(keep & ids & err & Hq)].
  - rewrite Hq. reflexivity.
  - rewrite (Hq ∅). destruct err as [e|]; [reflexivity|].
    rewrite Hq. f_equal. destruct keep; set_solver.
Qed.

End Accumulating.

(** * Further properties *)

(** ** Sequences *)

Section Sequences.
Context `{env : GoEnv}.

Lemma EvalUnion_app (ev : evaluator) l1 l2 src r :
  EvalUnion ev (l1 ++ l2)%list src r =
    match EvalUnion ev l1 src r with
    | Returned r' None => EvalUnion ev l2 src r'
    | other => other
    end.
Proof.
  revert r. induction l1 as [|q l1 IH]; intros r; cbn [app EvalUnion]; [reflexivity|].
  destruct (ev q src r) as [r' [e|]| |]; try reflexivity. apply IH.
Qed.

(** X1.  Sequences compose.  Evaluating the sequence [l1 ++ l2] is
    evaluating [l1] and, if that succeeds, [l2] on the result it left; an
    error or an abort in [l1] ends the evaluation with [l2] never
    evaluated.  So a sequence of two sequences evaluates like their
    concatenation. *)
Theorem X1_sequence_composition (l1 l2 : list value) (src : Col) (r : gset Z) :
  EvalQuery (VArr (l1 ++ l2)%list) src r =
    match EvalQuery (VArr l1) src r with
    | Returned r' None => EvalQuery (VArr l2) src r'
    | other => other
    end /\
  EvalQuery (VArr [VArr l1; VArr l2]) src r = EvalQuery (VArr (l1 ++ l2)%list) src r.
Proof.
  assert (Happ : EvalQuery (VArr (l1 ++ l2)%list) src r =
                 match EvalQuery (VArr l1) src r with
                 | Returned r' None => EvalQuery (VArr l2) src r'
                 | other => other
                 end).
  { rewrite !EvalQuery_arr, EvalUnion_app.
    destruct (EvalUnion EvalQuery l1 src r) as [r' [e|]| |]; try reflexivity.
    rewrite EvalQuery_arr. reflexivity. }
  split; [exact Happ|].
  rewrite Happ, (EvalQuery_arr [VArr l1; VArr l2]). cbn [EvalUnion].
  destruct (EvalQuery (VArr l1) src r) as [r' [e|]| |]; try reflexivity.
  destruct (EvalQuery (VArr l2) src r') as [r'' [e|]| |]; reflexivity.
Qed.

End Sequences.

(** ** Queries that only accumulate *)

Lemma joinTo_empty (r : gset Z) (err : option error) :
  Returned r err = joinTo r (Returned ∅ err).
Proof. cbn [joinTo]. f_equal. set_solver. Qed.

Lemma joinTo_joinTo (r ids : gset Z) (o : outcome) :
  joinTo (r ∪ ids) o = joinTo r (joinTo ids o).
Proof. destruct o as [ids' err| |]; cbn [joinTo]; [|reflexivity..]. f_equal. set_solver. Qed.

Section Adding.
Context `{env : GoEnv}.

Lemma LookupScan_adding expr src vecPath limit str :
  adding (LookupScan expr src vecPath limit str).
Proof.
  intros r. unfold LookupScan.
  destruct (decide (_ ∈ indexPaths src)); [|apply joinTo_empty].
  destruct (decide (numParts src = 0)); [reflexivity|].
  destruct (tableAt src _ _) as [ht|]; [|reflexivity].
  cbn [joinTo]. f_equal. apply set_eq. intros id.
  rewrite elem_of_union, !foldl_verifyMatch_elem. set_solver.
Qed.

Lemma Lookup_adding v expr src : adding (Lookup v expr src).
Proof.
  intros r. unfold Lookup.
  destruct (mapGet expr "in") as [[| | | | |path|]|]; try apply joinTo_empty.
  destruct (mapGet expr "limit") as [[| |f| | | |]|];
    try apply joinTo_empty; apply LookupScan_adding.
Qed.

Lemma ExistenceScan_adding expr src vecPath limit :
  adding (ExistenceScan expr src vecPath limit).
Proof.
  intros r. unfold ExistenceScan.
  destruct (decide (_ ∈ indexPaths src)); [|apply joinTo_empty].
  destruct (decide (numParts src = 0)); [reflexivity|].
  replace r with (r ∪ ∅) at 1 by set_solver. rewrite scanParts_add.
  destruct (scanParts _ _ _ _ _ _ ∅); reflexivity.
Qed.

Lemma PathExistence_adding hasPath expr src : adding (PathExistence hasPath expr src).
Proof.
  intros r. unfold PathExistence.
  destruct hasPath as [| | | | |path|]; try apply joinTo_empty.
  destruct (mapGet expr "limit") as [[| |f| | | |]|];
    try apply joinTo_empty; apply ExistenceScan_adding.
Qed.

Lemma RangeScan_adding expr src vecPath limit from to :
  adding (RangeScan expr src vecPath limit from to).
Proof.
  assert (Hloop : forall lookupValues r,
    match rangeLoop src (String.concat "," vecPath) limit lookupValues 0 r with
    | Some (_, result') => Returned result' None
    | None => Aborted
    end =
    joinTo r match rangeLoop src (String.concat "," vecPath) limit lookupValues 0 ∅ with
             | Some (_, result') => Returned result' None
             | None => Aborted
             end).
  { intros lookupValues r. replace r with (r ∪ ∅) at 1 by set_solver.
    rewrite rangeLoop_add. destruct (rangeLoop _ _ _ _ _ ∅) as [[c ids]|]; reflexivity. }
  intros r. unfold RangeScan.
  destruct (decide (_ ∈ indexPaths src)); [|apply joinTo_empty].
  destruct (decide (from < to)).
  - destruct (decide (to = max_int)); [reflexivity|apply Hloop].
  - destruct (decide (to = min_int)); [reflexivity|apply Hloop].
Qed.

Lemma IntRange_adding intFrom expr src : adding (IntRange intFrom expr src).
Proof.
  assert (Hbounds : forall vecPath limit,
            adding (RangeBounds intFrom expr src vecPath limit)).
  { intros vecPath limit r. unfold RangeBounds.
    destruct intFrom as [| |ffrom| | | |]; try apply joinTo_empty.
    destruct (mapGet expr "int-to") as [[| |fto| | | |]|];
      try apply joinTo_empty; try apply RangeScan_adding.
    destruct (mapGet expr "int to") as [[| |fto| | | |]|];
      try apply joinTo_empty; apply RangeScan_adding. }
  intros r. unfold IntRange.
  destruct (mapGet expr "in") as [[| | | | |path|]|]; try apply joinTo_empty.
  destruct (mapGet expr "limit") as [[| |f| | | |]|];
    try apply joinTo_empty; apply Hbounds.
Qed.

Lemma EvalUnion_adding l src :
  Forall (fun q => adding (EvalQuery q src)) l -> adding (EvalUnion EvalQuery l src).
Proof.
  induction 1 as [|q l Hq _ IH]; intros r; cbn [EvalUnion]; [apply joinTo_empty|].
  rewrite (Hq r). destruct (EvalQuery q src ∅) as [ids [e|]| |]; cbn [joinTo]; try reflexivity.
  rewrite (IH (r ∪ ids)), (IH ids). apply joinTo_joinTo.
Qed.

Lemma EvalQuery_adding (n : nat) (q : value) (src : Col) :
  (depth q <= n)%nat -> additive q = true -> adding (EvalQuery q src).
Proof.
  revert q. induction n as [|n IH]; intros q Hdepth Hadd.
  - destruct q as [| | | |s|l|m]; try (cbn in Hdepth; lia);
      try (intros r; rewrite !EvalQuery_unfold; apply joinTo_empty).
    intros r. destruct (decide (s = "all")) as [->|Hs].
    + rewrite !EvalQuery_all. cbn [joinTo]. f_equal. set_solver.
    + rewrite !(EvalQuery_str s src _ Hs). destruct (ParseInt s); cbn [joinTo]; f_equal;
        set_solver.
  - destruct q as [| | | |s|l|m]; try (apply IH; [cbn; lia|exact Hadd]).
    + intros r. rewrite !EvalQuery_arr. apply EvalUnion_adding.
      apply Forall_forall. intros x Hx. apply list_elem_of_In in Hx. apply IH.
      * pose proof (depth_elem l x Hx). lia.
      * cbn [additive] in Hadd. rewrite forallb_forall in Hadd. apply Hadd, Hx.
    + intros r. rewrite !EvalQuery_obj. cbn [additive] in Hadd.
      destruct (firstPresent m operatorKeys) as [[key v]|] eqn:Hfirst;
        [|apply joinTo_empty].
      assert (Hkey : In key operatorKeys).
      { apply firstPresent_Some in Hfirst as (before & after & -> & _).
        apply in_or_app. right. left. reflexivity. }
      cbn [operatorKeys In] in Hkey.
      destruct Hkey as [<-|[<-|[<-|[<-|[<-|[<-|[]]]]]]]; try discriminate Hadd.
      * apply Lookup_adding.
      * apply PathExistence_adding.
      * apply IntRange_adding.
      * apply IntRange_adding.
Qed.

(** X2.  Accumulation.  A query made of sequences, strings and the leaf
    operators eq, has and int-from / int from uses the result set it is
    given as an accumulator only: evaluated on [r] it ends as it does on
    the empty set, with [r] joined to the result.  In particular it never
    removes an identifier. *)
Theorem X2_additive_queries_accumulate (q : value) (src : Col) :
  additive q = true ->
  (forall r, EvalQuery q src r = joinTo r (EvalQuery q src ∅)) /\
  (forall r r' err, EvalQuery q src r = Returned r' err -> r ⊆ r').
Proof.
  intros Hadd.
  pose proof (EvalQuery_adding (depth q) q src (le_n _) Hadd) as Hq.
  split; [exact Hq|]. intros r r' err Hrun. rewrite (Hq r) in Hrun.
  destruct (EvalQuery q src ∅) as [ids e| |]; try discriminate.
  cbn [joinTo] in Hrun. injection Hrun as <- _. set_solver.
Qed.

End Adding.

(** The sequence of the document 1 and the documents with [n = 6], on a
    result that holds 42. *)
Lemma X2_additive_queries_accumulate_witness :
  let q := VArr [VStr "1"; eqNode [VStr "n"] (Sample.num 6)] in
  additive q = true /\
  EvalQuery q Sample.numbers ∅ = Returned {[ 1; 2 ]} None /\
  EvalQuery q Sample.numbers {[ 42 ]} = Returned ({[ 42 ]} ∪ {[ 1; 2 ]}) None.
Proof.
  intros q.
  assert (Hadd : additive q = true) by reflexivity.
  assert (Hrun : EvalQuery q Sample.numbers ∅ = Returned {[ 1; 2 ]} None)
    by (vm_compute; reflexivity).
  split; [exact Hadd|]. split; [exact Hrun|].
  destruct (X2_additive_queries_accumulate q Sample.numbers Hadd) as [Hjoin _].
  rewrite (Hjoin {[ 42 ]}), Hrun. reflexivity.
Defined.

(** ** Errors and the result set *)

Section ErrorStates.
Context `{env : GoEnv}.

Lemma Lookup_error v expr src result r' err :
  Lookup v expr src result = Returned r' (Some err) -> r' = result.
Proof.
  unfold Lookup.
  destruct (mapGet expr "in") as [[| | | | |path|]|]; try (intros [= <- _]; reflexivity).
  destruct (mapGet expr "limit") as [[| |f| | | |]|]; try (intros [= <- _]; reflexivity);
    intros Hrun; apply (LookupScan_error _ _ _ _ _ _ _ _ Hrun).
Qed.

Lemma PathExistence_error hasPath expr src result r' err :
  PathExistence hasPath expr src result = Returned r' (Some err) -> r' = result.
Proof.
  unfold PathExistence.
  destruct hasPath as [| | | | |path|]; try (intros [= <- _]; reflexivity).
  destruct (mapGet expr "limit") as [[| |f| | | |]|]; try (intros [= <- _]; reflexivity);
    intros Hrun; apply (ExistenceScan_error _ _ _ _ _ _ _ Hrun).
Qed.

Lemma IntRange_error intFrom expr src result r' err :
  IntRange intFrom expr src result = Returned r' (Some err) -> r' = result.
Proof.
  assert (Hbounds : forall vecPath limit,
    RangeBounds intFrom expr src vecPath limit result = Returned r' (Some err) ->
    r' = result).
  { intros vecPath limit. unfold RangeBounds.
    destruct intFrom as [| |ffrom| | | |]; try (intros [= <- _]; reflexivity).
    destruct (mapGet expr "int-to") as [[| |fto| | | |]|];
      try (intros [= <- _]; reflexivity);
      try (intros Hrun; apply (RangeScan_error _ _ _ _ _ _ _ _ _ Hrun)).
    destruct (mapGet expr "int to") as [[| |fto| | | |]|];
      try (intros [= <- _]; reflexivity);
      intros Hrun; apply (RangeScan_error _ _ _ _ _ _ _ _ _ Hrun). }
  unfold IntRange.
  destruct (mapGet expr "in") as [[| | | | |path|]|]; try (intros [= <- _]; reflexivity).
  destruct (mapGet expr "limit") as [[| |f| | | |]|]; try (intros [= <- _]; reflexivity);
    apply Hbounds.
Qed.

(** X3.  Leaves fail cleanly.  Whatever error an eq lookup, a has scan,
    an integer range or a string node returns, the result set is exactly
    as it was: every check of these operators comes before their first
    insertion. *)
Theorem X3_leaf_errors_leave_result (expr : object) (src : Col) (result r' : gset Z)
    (err : error) :
  (forall v, Lookup v expr src result = Returned r' (Some err) -> r' = result) /\
  (forall hasPath,
     PathExistence hasPath expr src result = Returned r' (Some err) -> r' = result) /\
  (forall intFrom,
     IntRange intFrom expr src result = Returned r' (Some err) -> r' = result) /\
  (forall s, EvalQuery (VStr s) src result = Returned r' (Some err) -> r' = result).
Proof.
  split; [intros v; apply Lookup_error|].
  split; [intros hasPath; apply PathExistence_error|].
  split; [intros intFrom; apply IntRange_error|].
  intros s. destruct (decide (s = "all")) as [->|Hs].
  - rewrite EvalQuery_all. discriminate.
  - rewrite (EvalQuery_str s src result Hs). destruct (ParseInt s); [discriminate|].
    intros [= <- _]. reflexivity.
Qed.

Lemma IntersectLoop_fails pre Ss q rest src acc err :
  Forall2 (succeedsWith src) pre Ss -> failsWith src q err ->
  IntersectLoop EvalQuery (pre ++ q :: rest)%list src false acc =
    Returned (foldl (∩) acc Ss) (Some err).
Proof.
  intros Hpre [S Hq]. revert acc.
  induction Hpre as [|p S' pre Ss Hp _ IH]; intros acc.
  - cbn [app IntersectLoop foldl]. rewrite Hq. reflexivity.
  - cbn [app foldl]. rewrite (IntersectLoop_next _ _ _ _ _ Hp). apply IH.
Qed.

Lemma ComplementLoop_fails pre Ss q rest src acc err :
  Forall2 (succeedsWith src) pre Ss -> failsWith src q err ->
  ComplementLoop EvalQuery (pre ++ q :: rest)%list src acc =
    Returned (foldl (fun a S => (S ∖ a) ∪ (a ∖ S)) acc Ss) (Some err).
Proof.
  intros Hpre [S Hq]. revert acc.
  induction Hpre as [|p S' pre Ss Hp _ IH]; intros acc.
  - cbn [app ComplementLoop foldl]. rewrite Hq. reflexivity.
  - cbn [app foldl]. rewrite (ComplementLoop_next _ _ _ _ _ Hp). apply IH.
Qed.

(** X4.  Combinators fail half-way.  When the children before a failing
    child have succeeded, an n node and a c node return the child's error
    with the result set as those children left it: an n node whose first
    child fails leaves the result untouched, but once a first child has
    succeeded the caller's identifiers are gone and the result is the
    intersection of the sub-results so far; a c node leaves the fold of
    the symmetric difference over the sub-results so far.  The children
    after the failing one are not evaluated. *)
Theorem X4_combinator_error_state (expr : object) (src : Col) (result : gset Z)
    (pre rest : list value) (Ss : list (gset Z)) (q : value) (err : error) :
  Forall2 (succeedsWith src) pre Ss -> failsWith src q err ->
  (mapGet expr "eq" = None -> mapGet expr "has" = None ->
   mapGet expr "n" = Some (VArr (pre ++ q :: rest)%list) ->
   EvalQuery (VObj expr) src result =
     Returned match Ss with
              | [] => result
              | first :: others => foldl (∩) first others
              end (Some err)) /\
  (mapGet expr "eq" = None -> mapGet expr "has" = None -> mapGet expr "n" = None ->
   mapGet expr "c" = Some (VArr (pre ++ q :: rest)%list) ->
   EvalQuery (VObj expr) src result =
     Returned (foldl (fun a S => (S ∖ a) ∪ (a ∖ S)) result Ss) (Some err)).
Proof.
  intros Hpre Hq. split.
  - intros Heq Hhas Hn. rewrite (EvalQuery_n _ _ _ _ Heq Hhas Hn). cbn [Intersect].
    destruct Hpre as [|p S pre Ss Hp Hpre].
    + destruct Hq as [S Hq]. cbn [app IntersectLoop]. rewrite Hq. reflexivity.
    + cbn [app]. rewrite (IntersectLoop_first _ _ _ _ _ Hp).
      apply IntersectLoop_fails; assumption.
  - intros Heq Hhas Hn Hc. rewrite (EvalQuery_c _ _ _ _ Heq Hhas Hn Hc). cbn [Complement].
    apply ComplementLoop_fails; assumption.
Qed.

End ErrorStates.

(** An eq node without [in], on a result that holds 42. *)
Lemma X3_leaf_errors_leave_result_witness :
  Lookup (Sample.num 1) [("eq", Sample.num 1)] Sample.numbers {[ 42 ]} =
    Returned {[ 42 ]} (Some ErrMissingLookupPath) /\
  ({[ 42 ]} : gset Z) = {[ 42 ]}.
Proof.
  assert (Hrun : Lookup (Sample.num 1) [("eq", Sample.num 1)] Sample.numbers {[ 42 ]} =
                 Returned {[ 42 ]} (Some ErrMissingLookupPath)) by reflexivity.
  split; [exact Hrun|].
  destruct (X3_leaf_errors_leave_result [("eq", Sample.num 1)] Sample.numbers
              {[ 42 ]} {[ 42 ]} ErrMissingLookupPath) as [Hlookup _].
  exact (Hlookup (Sample.num 1) Hrun).
Defined.

(** [{n: ["1", "x", "2"]}] on a result that holds 42: the 42 is gone, the
    1 of the first child is there, and the error is that of "x". *)
Lemma X4_combinator_error_state_witness :
  let expr := [("n", VArr [VStr "1"; VStr "x"; VStr "2"])] in
  Forall2 (succeedsWith Sample.numbers) [VStr "1"] [ {[ 1 ]} ] /\
  failsWith Sample.numbers (VStr "x") (ErrNotDocID "x") /\
  EvalQuery (VObj expr) Sample.numbers {[ 42 ]} = Returned {[ 1 ]} (Some (ErrNotDocID "x")).
Proof.
  intros expr.
  assert (Hpre : Forall2 (succeedsWith Sample.numbers) [VStr "1"] [ {[ 1 ]} ])
    by (repeat constructor).
  assert (Hq : failsWith Sample.numbers (VStr "x") (ErrNotDocID "x"))
    by (exists ∅; reflexivity).
  split; [exact Hpre|]. split; [exact Hq|].
  destruct (X4_combinator_error_state expr Sample.numbers {[ 42 ]} [VStr "1"] [VStr "2"]
              [ {[ 1 ]} ] (VStr "x") (ErrNotDocID "x") Hpre Hq) as [Hn _].
  exact (Hn eq_refl eq_refl eq_refl).
Defined.

(** ** Equality lookup and the probe *)

Section LookupExact.
Context `{env : GoEnv}.

(** X5.  An eq lookup is the probe, filtered.  When an eq lookup
    succeeds, the partition and table it reads are those of [hashScan] for
    the joined path, the hash of the lookup value's string form and the
    converted [limit] (0 when absent), and the result holds, beside what it
    held, exactly the identifiers the probe returned that verify: no
    verified candidate is left out.  A document that matches but that the
    probe did not return (for instance cut off by the limit) is not
    found. *)
Theorem X5_lookup_is_filtered_probe v expr src result r' :
  Lookup v expr src result = Returned r' None ->
  exists path limit vals,
    mapGet expr "in" = Some (VArr path) /\
    (mapGet expr "limit" = None /\ limit = 0 \/
     exists f, mapGet expr "limit" = Some (VFloat f) /\ limit = int_of_float64 f) /\
    hashScan src (String.concat INDEX_PATH_SEP (List.map Sprint path))
             (StrHash (Sprint v)) limit = Some vals /\
    forall id, id ∈ r' <->
      id ∈ result \/ (In id vals /\ verified src (List.map Sprint path) (Sprint v) id).
Proof.
  unfold Lookup. destruct (mapGet expr "in") as [[| | | | |path|]|]; try discriminate.
  assert (Hscan : forall limit,
    LookupScan expr src (List.map Sprint path) limit (Sprint v) result = Returned r' None ->
    exists vals,
      hashScan src (String.concat INDEX_PATH_SEP (List.map Sprint path))
               (StrHash (Sprint v)) limit = Some vals /\
      forall id, id ∈ r' <->
        id ∈ result \/ (In id vals /\ verified src (List.map Sprint path) (Sprint v) id)).
  { intros limit. unfold LookupScan, hashScan.
    destruct (decide (_ ∈ indexPaths src)); [|discriminate].
    destruct (decide (numParts src = 0)); [discriminate|].
    destruct (tableAt src _ _) as [ht|]; [|discriminate].
    intros [= <-]. eexists. split; [reflexivity|]. intros id. apply foldl_verifyMatch_elem. }
  destruct (mapGet expr "limit") as [[| |f| | | |]|]; try discriminate.
  - intros Hrun. destruct (Hscan _ Hrun) as (vals & Hvals & Hr).
    exists path, (int_of_float64 f), vals. eauto 10.
  - intros Hrun. destruct (Hscan _ Hrun) as (vals & Hvals & Hr).
    exists path, 0, vals. eauto 10.
Qed.

End LookupExact.

(** [{eq: 6, in: [n]}] on the sample collection: the probe returns the
    document 2, which verifies. *)
Lemma X5_lookup_is_filtered_probe_witness :
  let expr := [("eq", Sample.num 6); ("in", VArr [VStr "n"])] in
  Lookup (Sample.num 6) expr Sample.numbers ∅ = Returned {[ 2 ]} None /\
  exists path limit vals,
    mapGet expr "in" = Some (VArr path) /\
    (mapGet expr "limit" = None /\ limit = 0 \/
     exists f, mapGet expr "limit" = Some (VFloat f) /\ limit = int_of_float64 f) /\
    hashScan Sample.numbers (String.concat INDEX_PATH_SEP (List.map Sprint path))
             (StrHash (Sprint (Sample.num 6))) limit = Some vals /\
    forall id, id ∈ ({[ 2 ]} : gset Z) <->
      id ∈ (∅ : gset Z) \/
      (In id vals /\
       verified Sample.numbers (List.map Sprint path) (Sprint (Sample.num 6)) id).
Proof.
  intros expr.
  assert (Hrun : Lookup (Sample.num 6) expr Sample.numbers ∅ = Returned {[ 2 ]} None)
    by (vm_compute; reflexivity).
  split; [exact Hrun|].
  exact (X5_lookup_is_filtered_probe (Sample.num 6) expr Sample.numbers ∅ {[ 2 ]} Hrun).
Defined.

(** ** The combinators as operations on sets *)

Lemma foldl_intersection_elem (id : Z) (acc : gset Z) (sets : list (gset Z)) :
  id ∈ foldl (∩) acc sets <-> id ∈ acc /\ Forall (fun X => id ∈ X) sets.
Proof.
  revert acc. induction sets as [|X sets IH]; intros acc; cbn [foldl].
  - split; [intros H; split; [exact H|constructor]|intros [H _]; exact H].
  - rewrite IH, elem_of_intersection, Forall_cons. tauto.
Qed.

Lemma foldl_symmetric_difference_elem (id : Z) (acc : gset Z) (sets : list (gset Z)) :
  bool_decide (id ∈ foldl (fun a X => (X ∖ a) ∪ (a ∖ X)) acc sets) =
  xorb (bool_decide (id ∈ acc)) (Nat.odd (occurrences id sets)).
Proof.
  revert acc. induction sets as [|X sets IH]; intros acc; cbn [foldl].
  - unfold occurrences. cbn. destruct (bool_decide (id ∈ acc)); reflexivity.
  - rewrite IH. unfold occurrences. rewrite filter_cons.
    destruct (decide (id ∈ X)) as [HX|HX]; cbn [length].
    + rewrite Nat.odd_succ, <- Nat.negb_odd.
      destruct (decide (id ∈ acc)) as [Ha|Ha].
      * rewrite (bool_decide_eq_true_2 _ Ha), bool_decide_eq_false_2 by set_solver.
        destruct (Nat.odd _); reflexivity.
      * rewrite (bool_decide_eq_false_2 _ Ha), bool_decide_eq_true_2 by set_solver.
        destruct (Nat.odd _); reflexivity.
    + destruct (decide (id ∈ acc)) as [Ha|Ha].
      * rewrite (bool_decide_eq_true_2 _ Ha), bool_decide_eq_true_2 by set_solver.
        reflexivity.
      * rewrite (bool_decide_eq_false_2 _ Ha), bool_decide_eq_false_2 by set_solver.
        reflexivity.
Qed.

Lemma occurrences_Permutation (id : Z) (sets sets' : list (gset Z)) :
  sets ≡ₚ sets' -> occurrences id sets = occurrences id sets'.
Proof. intros Hperm. unfold occurrences. rewrite Hperm. reflexivity. Qed.

Section CombinatorAlgebra.
Context `{env : GoEnv}.

Lemma succeeds_subResultOf src q : succeeds src q -> succeedsWith src q (subResultOf src q).
Proof.
  intros [S HS]. unfold succeedsWith, subResultOf in *. rewrite HS. reflexivity.
Qed.

Lemma succeeds_all src children :
  Forall (succeeds src) children ->
  Forall2 (succeedsWith src) children (subResultOf src <$> children).
Proof.
  induction 1 as [|q children Hq _ IH]; cbn; constructor;
    [apply succeeds_subResultOf, Hq|exact IH].
Qed.

Lemma EvalQuery_nNode children src result :
  EvalQuery (nNode children) src result = IntersectLoop EvalQuery children src true result.
Proof. unfold nNode. rewrite (EvalQuery_n _ (VArr children)) by reflexivity. reflexivity. Qed.

Lemma EvalQuery_cNode children src result :
  EvalQuery (cNode children) src result = ComplementLoop EvalQuery children src result.
Proof. unfold cNode. rewrite (EvalQuery_c _ (VArr children)) by reflexivity. reflexivity. Qed.

Lemma nNode_all q children src result :
  Forall (succeeds src) (q :: children) ->
  EvalQuery (nNode (q :: children)) src result =
    Returned (foldl (∩) (subResultOf src q) (subResultOf src <$> children)) None.
Proof.
  intros Hall. apply succeeds_all in Hall. cbn [fmap list_fmap] in Hall.
  inversion Hall as [|? ? ? ? Hq Hrest]; subst.
  rewrite EvalQuery_nNode, (IntersectLoop_first _ _ _ _ _ Hq).
  apply IntersectLoop_all, Hrest.
Qed.

(** X6.  Intersection of sets.  When all children of [{n: children}]
    succeed and there is at least one, the node returns exactly the
    identifiers that are in the sub-result of every child, whatever the
    result set held before, and the order of the children does not
    matter. *)
Theorem X6_intersection_of_all_children (children : list value) (src : Col)
    (result : gset Z) :
  Forall (succeeds src) children -> children <> [] ->
  exists R,
    EvalQuery (nNode children) src result = Returned R None /\
    (forall id, id ∈ R <-> Forall (fun q => id ∈ subResultOf src q) children) /\
    (forall children', children ≡ₚ children' ->
       EvalQuery (nNode children') src result = Returned R None).
Proof.
  intros Hall Hne.
  assert (Helem : forall l, Forall (succeeds src) l -> l <> [] ->
    exists R, EvalQuery (nNode l) src result = Returned R None /\
      forall id, id ∈ R <-> Forall (fun q => id ∈ subResultOf src q) l).
  { intros [|q l] Hl Hl0; [contradiction|].
    eexists. split; [apply (nNode_all q l src result Hl)|].
    intros id. rewrite foldl_intersection_elem, Forall_cons, Forall_fmap. reflexivity. }
  destruct (Helem children Hall Hne) as (R & HR & Hin).
  exists R. split; [exact HR|]. split; [exact Hin|].
  intros children' Hperm.
  assert (Hall' : Forall (succeeds src) children') by (rewrite <- Hperm; exact Hall).
  assert (Hne' : children' <> []).
  { intros ->. apply Permutation_nil_r in Hperm. contradiction. }
  destruct (Helem children' Hall' Hne') as (R' & HR' & Hin').
  rewrite HR'. f_equal. apply set_eq. intros id.
  rewrite Hin, Hin', Hperm. reflexivity.
Qed.

Lemma cNode_all children src result :
  Forall (succeeds src) children ->
  EvalQuery (cNode children) src result =
    Returned (foldl (fun a X => (X ∖ a) ∪ (a ∖ X)) result (subResultOf src <$> children)) None.
Proof.
  intros Hall. rewrite EvalQuery_cNode. apply ComplementLoop_all, succeeds_all, Hall.
Qed.

(** X7.  Complement counts parity.  When all children of
    [{c: children}] succeed, an identifier is in the result the node
    returns exactly when the number of children whose sub-result holds it
    is odd, if the result set did not hold it before, and even, if it did;
    the order of the children does not matter. *)
Theorem X7_complement_parity (children : list value) (src : Col) (result : gset Z) :
  Forall (succeeds src) children ->
  exists R,
    EvalQuery (cNode children) src result = Returned R None /\
    (forall id,
       bool_decide (id ∈ R) =
       xorb (bool_decide (id ∈ result))
            (Nat.odd (occurrences id (subResultOf src <$> children)))) /\
    (forall children', children ≡ₚ children' ->
       EvalQuery (cNode children') src result = Returned R None).
Proof.
  intros Hall. eexists. split; [apply (cNode_all _ _ _ Hall)|].
  split; [intros id; apply foldl_symmetric_difference_elem|].
  intros children' Hperm.
  assert (Hall' : Forall (succeeds src) children') by (rewrite <- Hperm; exact Hall).
  rewrite (cNode_all _ _ _ Hall'). f_equal. apply set_eq. intros id.
  match goal with
  | |- ?a ∈ ?X <-> ?a ∈ ?Y => assert (Hb : bool_decide (a ∈ X) = bool_decide (a ∈ Y))
  end.
  { rewrite !foldl_symmetric_difference_elem.
    rewrite (occurrences_Permutation id (subResultOf src <$> children)
               (subResultOf src <$> children'))
      by (rewrite Hperm; reflexivity).
    reflexivity. }
  split; intros Hid.
  - apply (bool_decide_eq_true_2 _) in Hid. rewrite Hb in Hid.
    exact (bool_decide_eq_true_1 _ Hid).
  - apply (bool_decide_eq_true_2 _) in Hid. rewrite <- Hb in Hid.
    exact (bool_decide_eq_true_1 _ Hid).
Qed.

End CombinatorAlgebra.

(** [{n: [{eq: 6, in: [n]}, "2"]}] on the sample collection. *)
Lemma X6_intersection_of_all_children_witness :
  let children := [eqNode [VStr "n"] (Sample.num 6); VStr "2"] in
  Forall (succeeds Sample.numbers) children /\ children <> [] /\
  exists R,
    EvalQuery (nNode children) Sample.numbers {[ 42 ]} = Returned R None /\
    (forall id, id ∈ R <-> Forall (fun q => id ∈ subResultOf Sample.numbers q) children) /\
    (forall children', children ≡ₚ children' ->
       EvalQuery (nNode children') Sample.numbers {[ 42 ]} = Returned R None).
Proof.
  intros children.
  assert (Hall : Forall (succeeds Sample.numbers) children).
  { repeat constructor; eexists; vm_compute; reflexivity. }
  assert (Hne : children <> []) by discriminate.
  split; [exact Hall|]. split; [exact Hne|].
  exact (X6_intersection_of_all_children children Sample.numbers {[ 42 ]} Hall Hne).
Defined.

(** [{c: ["1", "2", "1"]}] on the sample collection. *)
Lemma X7_complement_parity_witness :
  let children := [VStr "1"; VStr "2"; VStr "1"] in
  Forall (succeeds Sample.numbers) children /\
  exists R,
    EvalQuery (cNode children) Sample.numbers ∅ = Returned R None /\
    (forall id,
       bool_decide (id ∈ R) =
       xorb (bool_decide (id ∈ (∅ : gset Z)))
            (Nat.odd (occurrences id (subResultOf Sample.numbers <$> children)))) /\
    (forall children', children ≡ₚ children' ->
       EvalQuery (cNode children') Sample.numbers ∅ = Returned R None).
Proof.
  intros children.
  assert (Hall : Forall (succeeds Sample.numbers) children).
  { repeat constructor; eexists; vm_compute; reflexivity. }
  split; [exact Hall|].
  exact (X7_complement_parity children Sample.numbers ∅ Hall).
Defined.

Section Negation.
Context `{env : GoEnv}.

Lemma eq_subResult_readable expr v src S :
  mapGet expr "eq" = Some v -> succeedsWith src (VObj expr) S -> S ⊆ dom (docs src).
Proof.
  unfold succeedsWith. intros Heq. rewrite EvalQuery_obj. cbn [firstPresent operatorKeys].
  rewrite Heq. unfold applyOperator. rewrite decide_True by reflexivity.
  intros Hrun. destruct (Lookup_success _ _ _ _ _ Hrun) as (path & limit & ht & _ & _ & ->).
  intros id Hid. apply foldl_verifyMatch_elem in Hid as [Hid|[_ (doc & Hdoc & _)]].
  - set_solver.
  - apply elem_of_dom. exists doc. exact Hdoc.
Qed.

(** X8.  "All but".  An eq node only finds documents that can be read, so
    on an empty result the node [{c: ["all", q]}] with an eq node [q]
    that succeeds returns exactly the identifiers of the documents of the
    collection that [q] does not find. *)
Theorem X8_all_but_eq (expr : object) (v : value) (src : Col) (S : gset Z) :
  mapGet expr "eq" = Some v -> succeedsWith src (VObj expr) S ->
  S ⊆ dom (docs src) /\
  EvalQuery (cNode [VStr "all"; VObj expr]) src ∅ = Returned (dom (docs src) ∖ S) None.
Proof.
  intros Heq Hq. pose proof (eq_subResult_readable _ _ _ _ Heq Hq) as Hsub.
  split; [exact Hsub|].
  assert (Hall : succeedsWith src (VStr "all") (dom (docs src))).
  { unfold succeedsWith. rewrite EvalQuery_all. f_equal. set_solver. }
  rewrite EvalQuery_cNode.
  rewrite (ComplementLoop_all _ _ _ [dom (docs src); S]) by (repeat constructor; assumption).
  f_equal. cbn [foldl]. set_solver.
Qed.

End Negation.

(** The documents of the sample collection whose [n] is not 5. *)
Lemma X8_all_but_eq_witness :
  let expr := [("eq", Sample.num 5); ("in", VArr [VStr "n"])] in
  mapGet expr "eq" = Some (Sample.num 5) /\
  succeedsWith Sample.numbers (VObj expr) {[ 1 ]} /\
  EvalQuery (cNode [VStr "all"; VObj expr]) Sample.numbers ∅ =
    Returned (dom (docs Sample.numbers) ∖ {[ 1 ]}) None.
Proof.
  intros expr.
  assert (Hq : succeedsWith Sample.numbers (VObj expr) {[ 1 ]}) by (vm_compute; reflexivity).
  split; [reflexivity|]. split; [exact Hq|].
  exact (proj2 (X8_all_but_eq expr (Sample.num 5) Sample.numbers {[ 1 ]} eq_refl Hq)).
Defined.

(** ** The has scan as one scan *)

Lemma list_to_set_take_all (k : nat) (ids : list Z) :
  (length ids <= k)%nat -> take k ids = ids.
Proof. intros Hk. apply take_ge. lia. Qed.

Section HasScan.
Context `{env : GoEnv}.

Lemma scanIDs_app k l1 l2 c r :
  scanIDs k (l1 ++ l2)%list c r =
    match scanIDs k l1 c r with
    | Continue c' r' => scanIDs k l2 c' r'
    | LimitReached r' => LimitReached r'
    end.
Proof.
  revert c r. induction l1 as [|id l1 IH]; intros c r; cbn [app scanIDs]; [reflexivity|].
  destruct (decide (wrap (c + 1) = k)); [reflexivity|apply IH].
Qed.

Lemma scanChunks_flat ht k partDiv chunks c r :
  scanChunks ht k partDiv chunks c r =
  scanIDs k (flat_map (fun i => GetPartition ht i partDiv) chunks) c r.
Proof.
  revert c r. induction chunks as [|i chunks IH]; intros c r;
    cbn [scanChunks flat_map]; [reflexivity|].
  rewrite scanIDs_app.
  destruct (scanIDs k (GetPartition ht i partDiv) c r); [apply IH|reflexivity].
Qed.

Lemma scanParts_flat src jointPath k partDiv parts ids c r :
  scanOrder src jointPath partDiv parts = Some ids ->
  scanParts src jointPath k partDiv parts c r =
    match scanIDs k ids c r with
    | Continue _ r' => Returned r' None
    | LimitReached r' => Returned r' None
    end.
Proof.
  revert ids c r. induction parts as [|part parts IH]; intros ids c r;
    cbn [scanOrder scanParts].
  - intros [= <-]. reflexivity.
  - destruct (tableAt src part jointPath) as [ht|]; [|discriminate].
    destruct (scanOrder src jointPath partDiv parts) as [rest|]; [|discriminate].
    intros [= <-]. rewrite scanChunks_flat, scanIDs_app.
    destruct (scanIDs k _ c r) as [c' r'|r']; [apply IH|]; reflexivity.
Qed.

Lemma scanIDs_limited k ids c r :
  0 < k <= max_int -> 0 <= c < k ->
  scanIDs k ids c r =
    if decide (k - c <= Z.of_nat (length ids))
    then LimitReached (r ∪ list_to_set (take (Z.to_nat (k - c)) ids))
    else Continue (c + Z.of_nat (length ids)) (r ∪ list_to_set ids).
Proof.
  intros Hk. revert c r. induction ids as [|id ids IH]; intros c r Hc; cbn [scanIDs].
  - rewrite decide_False by (cbn; lia). cbn [length]. f_equal; [lia|set_solver].
  - rewrite wrap_id by (unfold in_int, min_int; unfold max_int in *; lia).
    destruct (decide (c + 1 = k)) as [Heq|Hne].
    + rewrite decide_True by (cbn [length]; lia).
      replace (Z.to_nat (k - c)) with 1%nat by lia.
      change (take 1 (id :: ids)) with [id]. f_equal.
      rewrite list_to_set_cons, list_to_set_nil. set_solver.
    + rewrite (IH (c + 1) ({[ id ]} ∪ r)) by lia. cbn [length].
      destruct (decide (k - (c + 1) <= Z.of_nat (length ids))).
      * rewrite decide_True by lia.
        replace (Z.to_nat (k - c)) with (S (Z.to_nat (k - (c + 1)))) by lia.
        change (take (S ?n) (id :: ids)) with (id :: take n ids).
        f_equal. rewrite list_to_set_cons. set_solver.
      * rewrite decide_False by lia. f_equal; [lia|].
        rewrite list_to_set_cons. set_solver.
Qed.

Lemma scanIDs_unlimited k ids c r :
  k <= 0 -> 0 <= c -> c + Z.of_nat (length ids) <= max_int ->
  scanIDs k ids c r = Continue (c + Z.of_nat (length ids)) (r ∪ list_to_set ids).
Proof.
  intros Hk. revert c r. induction ids as [|id ids IH]; intros c r Hc Hlen; cbn [scanIDs].
  - cbn [length]. f_equal; [lia|set_solver].
  - cbn [length] in Hlen.
    rewrite wrap_id by (unfold in_int, min_int; unfold max_int in *; lia).
    rewrite decide_False by lia. rewrite (IH (c + 1) ({[ id ]} ∪ r)) by lia.
    cbn [length]. f_equal; [lia|]. rewrite list_to_set_cons. set_solver.
Qed.

Lemma ExistenceScan_ordered expr src vecPath k ids r :
  String.concat INDEX_PATH_SEP vecPath ∈ indexPaths src -> numParts src <> 0 ->
  scanOrder src (String.concat INDEX_PATH_SEP vecPath) (partDivOf src)
            (seqZ 0 (numParts src)) = Some ids ->
  k <= max_int -> (k <= 0 -> Z.of_nat (length ids) <= max_int) ->
  ExistenceScan expr src vecPath k r = Returned (r ∪ list_to_set (limited k ids)) None.
Proof.
  intros Hindexed Hparts Horder Hk Hlen. unfold ExistenceScan.
  rewrite decide_True by exact Hindexed. rewrite decide_False by exact Hparts.
  fold (partDivOf src). rewrite (scanParts_flat _ _ _ _ _ _ _ _ Horder). unfold limited.
  destruct (0 <? k) eqn:Hpos.
  - apply Z.ltb_lt in Hpos. rewrite scanIDs_limited by lia.
    replace (k - 0) with k by lia.
    destruct (decide (k <= Z.of_nat (length ids))); [reflexivity|].
    rewrite list_to_set_take_all by lia. reflexivity.
  - apply Z.ltb_ge in Hpos. rewrite scanIDs_unlimited by (try apply Hlen; lia). reflexivity.
Qed.

(** X9.  The has scan in order.  On an indexed path whose table exists in
    every partition, a has scan meets the identifiers of the index
    partition after partition and chunk after chunk, and adds all of them
    when [limit] is absent, zero or negative, and exactly the first [k]
    that it meets (duplicates counted) when [limit] converts to [k > 0];
    it reads no document. *)
Theorem X9_has_scan_order (path : list value) (expr : object) (src : Col) (k : Z)
    (ids : list Z) (r : gset Z) :
  let jointPath := String.concat INDEX_PATH_SEP (List.map Sprint path) in
  limitOf expr k ->
  jointPath ∈ indexPaths src -> numParts src <> 0 ->
  scanOrder src jointPath (partDivOf src) (seqZ 0 (numParts src)) = Some ids ->
  (k <= 0 -> Z.of_nat (length ids) <= max_int) ->
  PathExistence (VArr path) expr src r = Returned (r ∪ list_to_set (limited k ids)) None.
Proof.
  intros jointPath Hlimit Hindexed Hparts Horder Hlen. unfold PathExistence.
  destruct Hlimit as [[-> ->]|(f & -> & ->)].
  - apply ExistenceScan_ordered; try assumption. unfold max_int. lia.
  - apply ExistenceScan_ordered; try assumption. apply int_of_float64_in_int.
Qed.

End HasScan.

(** A has scan with [limit] 3 on the sample collection. *)
Lemma X9_has_scan_order_witness :
  let expr := [("has", VArr [VStr "n"]); ("limit", Sample.num 3)] in
  let jointPath := String.concat INDEX_PATH_SEP (List.map Sprint [VStr "n"]) in
  limitOf expr 3 /\
  (jointPath ∈ indexPaths Sample.numbers) /\ numParts Sample.numbers <> 0 /\
  scanOrder Sample.numbers jointPath (partDivOf Sample.numbers)
            (seqZ 0 (numParts Sample.numbers)) = Some [2; 1; 3; 4] /\
  PathExistence (VArr [VStr "n"]) expr Sample.numbers ∅ =
    Returned (∅ ∪ list_to_set (limited 3 [2; 1; 3; 4])) None.
Proof.
  intros expr jointPath.
  assert (Hlimit : limitOf expr 3) by (right; eexists; split; reflexivity).
  assert (Hindexed : jointPath ∈ indexPaths Sample.numbers) by (cbn; set_solver).
  assert (Hparts : numParts Sample.numbers <> 0) by discriminate.
  assert (Horder : scanOrder Sample.numbers jointPath (partDivOf Sample.numbers)
                     (seqZ 0 (numParts Sample.numbers)) = Some [2; 1; 3; 4])
    by (vm_compute; reflexivity).
  split; [exact Hlimit|]. split; [exact Hindexed|]. split; [exact Hparts|].
  split; [exact Horder|].
  apply (X9_has_scan_order [VStr "n"] expr Sample.numbers 3 [2; 1; 3; 4] ∅
           Hlimit Hindexed Hparts Horder).
  intros Hk. exfalso. lia.
Defined.

(** ** The range scan as one scan *)

Section RangeOrder.
Context `{env : GoEnv}.

Lemma collectIDs_limited k vals c r :
  0 < k <= max_int -> 0 <= c <= k ->
  collectIDs k vals c r =
    (Z.min k (c + Z.of_nat (length vals)),
     r ∪ list_to_set (take (Z.to_nat (k - c)) vals)).
Proof.
  intros Hk. revert c r. induction vals as [|id vals IH]; intros c r Hc; cbn [collectIDs].
  - rewrite take_nil, list_to_set_nil. cbn [length]. f_equal; [lia|set_solver].
  - destruct (0 <? k) eqn:Hpos; [|apply Z.ltb_ge in Hpos; lia]. cbn [andb].
    destruct (c =? k) eqn:Hck.
    + apply Z.eqb_eq in Hck. subst c. replace (Z.to_nat (k - k)) with 0%nat by lia.
      rewrite take_0, list_to_set_nil. f_equal; [lia|set_solver].
    + apply Z.eqb_neq in Hck.
      rewrite wrap_id by (unfold in_int, min_int; unfold max_int in *; lia).
      rewrite (IH (c + 1) ({[ id ]} ∪ r)) by lia. cbn [length].
      replace (Z.to_nat (k - c)) with (S (Z.to_nat (k - (c + 1)))) by lia.
      change (take (S ?n) (id :: vals)) with (id :: take n vals).
      f_equal; [lia|]. rewrite list_to_set_cons. set_solver.
Qed.

Lemma collectIDs_all k vals c r :
  k <= 0 -> snd (collectIDs k vals c r) = r ∪ list_to_set vals.
Proof.
  intros Hk. revert c r. induction vals as [|id vals IH]; intros c r; cbn [collectIDs].
  - rewrite list_to_set_nil. cbn [snd]. set_solver.
  - destruct (0 <? k) eqn:Hpos; [apply Z.ltb_lt in Hpos; lia|]. cbn [andb].
    rewrite IH, list_to_set_cons. set_solver.
Qed.

Lemma rangeLoop_panics src htPath k lookupValues c r :
  rangeIDs src htPath k lookupValues = None ->
  rangeLoop src htPath k lookupValues c r = None.
Proof.
  revert c r. induction lookupValues as [|v rest IH]; intros c r;
    cbn [rangeIDs rangeLoop]; [discriminate|].
  destruct (hashScan src htPath _ k) as [vals|]; [|reflexivity].
  destruct (rangeIDs src htPath k rest) as [ids|]; [discriminate|]. intros _.
  destruct (collectIDs k vals c r) as [c' r']. apply IH. reflexivity.
Qed.

Lemma rangeLoop_limited src htPath k lookupValues ids c r :
  0 < k <= max_int -> 0 <= c <= k ->
  rangeIDs src htPath k lookupValues = Some ids ->
  rangeLoop src htPath k lookupValues c r =
    Some (Z.min k (c + Z.of_nat (length ids)),
          r ∪ list_to_set (take (Z.to_nat (k - c)) ids)).
Proof.
  intros Hk. revert ids c r. induction lookupValues as [|v rest IH]; intros ids c r Hc;
    cbn [rangeIDs rangeLoop].
  - intros [= <-]. rewrite take_nil, list_to_set_nil. cbn [length].
    f_equal. f_equal; [lia|set_solver].
  - destruct (hashScan src htPath _ k) as [vals|]; [|discriminate].
    destruct (rangeIDs src htPath k rest) as [rest_ids|]; [|discriminate].
    intros [= <-]. rewrite collectIDs_limited by assumption.
    rewrite (IH rest_ids) by (try reflexivity; lia).
    rewrite length_app, take_app, list_to_set_app_L. f_equal. f_equal; [lia|].
    rewrite <- (assoc_L (∪)). f_equal. f_equal.
    destruct (decide (k - c <= Z.of_nat (length vals))).
    + replace (Z.to_nat (k - c) - length vals)%nat with 0%nat by lia.
      replace (Z.to_nat (k - Z.min k (c + Z.of_nat (length vals)))) with 0%nat by lia.
      rewrite !take_0. reflexivity.
    + f_equal. f_equal. lia.
Qed.

Lemma rangeLoop_all src htPath k lookupValues ids c r :
  k <= 0 ->
  rangeIDs src htPath k lookupValues = Some ids ->
  exists c', rangeLoop src htPath k lookupValues c r = Some (c', r ∪ list_to_set ids).
Proof.
  intros Hk. revert ids c r. induction lookupValues as [|v rest IH]; intros ids c r;
    cbn [rangeIDs rangeLoop].
  - intros [= <-]. exists c. rewrite list_to_set_nil. f_equal. f_equal. set_solver.
  - destruct (hashScan src htPath _ k) as [vals|]; [|discriminate].
    destruct (rangeIDs src htPath k rest) as [rest_ids|]; [|discriminate].
    intros [= <-]. pose proof (collectIDs_all k vals c r Hk) as Hcollect.
    destruct (collectIDs k vals c r) as [c1 r1]. cbn [snd] in Hcollect. subst r1.
    destruct (IH rest_ids c1 (r ∪ list_to_set vals) eq_refl) as [c' ->].
    exists c'. rewrite list_to_set_app_L. f_equal. f_equal. set_solver.
Qed.

Lemma RangeScan_ordered expr src vecPath k from to r :
  String.concat "," vecPath ∈ indexPaths src -> k <= max_int ->
  (from < to -> to <> max_int) -> (to <= from -> to <> min_int) ->
  RangeScan expr src vecPath k from to r =
    match rangeIDs src (String.concat "," vecPath) k (probedValues from to) with
    | Some ids => Returned (r ∪ list_to_set (limited k ids)) None
    | None => Aborted
    end.
Proof.
  intros Hindexed Hk Hforward Hbackward.
  assert (Hloop : forall lookupValues,
    match rangeLoop src (String.concat "," vecPath) k lookupValues 0 r with
    | Some (_, result') => Returned result' None
    | None => Aborted
    end =
    match rangeIDs src (String.concat "," vecPath) k lookupValues with
    | Some ids => Returned (r ∪ list_to_set (limited k ids)) None
    | None => Aborted
    end).
  { intros lookupValues.
    destruct (rangeIDs src (String.concat "," vecPath) k lookupValues) as [ids|] eqn:Hids.
    - unfold limited. destruct (0 <? k) eqn:Hpos.
      + apply Z.ltb_lt in Hpos.
        rewrite (rangeLoop_limited _ _ _ _ ids 0 r) by (try exact Hids; lia).
        replace (k - 0) with k by lia. reflexivity.
      + apply Z.ltb_ge in Hpos.
        destruct (rangeLoop_all _ _ _ _ ids 0 r Hpos Hids) as [c' ->]. reflexivity.
    - rewrite (rangeLoop_panics _ _ _ _ 0 r Hids). reflexivity. }
  unfold RangeScan, probedValues. rewrite decide_True by exact Hindexed.
  destruct (decide (from < to)).
  - rewrite decide_False by (apply Hforward; assumption). apply Hloop.
  - rewrite decide_False by (apply Hbackward; lia). apply Hloop.
Qed.

Lemma IntRange_parsed ffrom fto expr src path k r :
  mapGet expr "in" = Some (VArr path) -> limitOf expr k ->
  (mapGet expr "int-to" = Some (VFloat fto) \/
   mapGet expr "int-to" = None /\ mapGet expr "int to" = Some (VFloat fto)) ->
  IntRange (VFloat ffrom) expr src r =
    RangeScan expr src (List.map Sprint path) k
              (int_of_float64 ffrom) (int_of_float64 fto) r.
Proof.
  intros Hin Hlimit Hto. unfold IntRange. rewrite Hin.
  assert (Hbounds : forall l,
    RangeBounds (VFloat ffrom) expr src (List.map Sprint path) l r =
    RangeScan expr src (List.map Sprint path) l
              (int_of_float64 ffrom) (int_of_float64 fto) r).
  { intros l. unfold RangeBounds. destruct Hto as [->|[-> ->]]; reflexivity. }
  destruct Hlimit as [[-> ->]|(f & -> & ->)]; apply Hbounds.
Qed.

(** X10.  The range scan in order.  On an indexed path, with bounds that
    keep the loop variable off the ends of [int], an integer range probes
    every value between its bounds, in ascending order when
    [from < to] and in descending order otherwise; if one of the probes
    panics, so does the range, even when the limit was reached before it;
    otherwise it adds all identifiers the probes returned when [limit] is
    absent, zero or negative, and exactly the first [k] of them
    (duplicates counted) when [limit] converts to [k > 0].  It reads no
    document. *)
Theorem X10_range_scan_order (ffrom fto : float64) (expr : object) (src : Col)
    (path : list value) (k : Z) (r : gset Z) :
  let from := int_of_float64 ffrom in
  let to := int_of_float64 fto in
  let htPath := String.concat "," (List.map Sprint path) in
  mapGet expr "in" = Some (VArr path) -> limitOf expr k ->
  (mapGet expr "int-to" = Some (VFloat fto) \/
   mapGet expr "int-to" = None /\ mapGet expr "int to" = Some (VFloat fto)) ->
  htPath ∈ indexPaths src ->
  (from < to -> to <> max_int) -> (to <= from -> to <> min_int) ->
  IntRange (VFloat ffrom) expr src r =
    match rangeIDs src htPath k (probedValues from to) with
    | Some ids => Returned (r ∪ list_to_set (limited k ids)) None
    | None => Aborted
    end.
Proof.
  intros from to htPath Hin Hlimit Hto Hindexed Hforward Hbackward.
  rewrite (IntRange_parsed ffrom fto expr src path k r Hin Hlimit Hto).
  apply RangeScan_ordered; try assumption.
  destruct Hlimit as [[_ ->]|(f & _ & ->)]; [unfold max_int; lia|].
  apply int_of_float64_in_int.
Qed.

End RangeOrder.

(** [{int-from: 9, int-to: 5, in: [n], limit: 3}] on the sample
    collection: a descending scan that meets the documents 4, 3, 2, 1 and
    keeps the first three. *)
Lemma X10_range_scan_order_witness :
  let expr := [("int-from", Sample.num 9); ("int-to", Sample.num 5);
               ("in", VArr [VStr "n"]); ("limit", Sample.num 3)] in
  let htPath := String.concat "," (List.map Sprint [VStr "n"]) in
  mapGet expr "in" = Some (VArr [VStr "n"]) /\ limitOf expr 3 /\
  (htPath ∈ indexPaths Sample.numbers) /\
  rangeIDs Sample.numbers htPath 3 (probedValues 9 5) = Some [4; 3; 2; 1] /\
  IntRange (Sample.num 9) expr Sample.numbers ∅ =
    Returned (∅ ∪ list_to_set (limited 3 [4; 3; 2; 1])) None.
Proof.
  intros expr htPath.
  assert (Hlimit : limitOf expr 3) by (right; eexists; split; reflexivity).
  assert (Hindexed : htPath ∈ indexPaths Sample.numbers) by (cbn; set_solver).
  assert (Hids : rangeIDs Sample.numbers htPath 3 (probedValues 9 5) = Some [4; 3; 2; 1])
    by (vm_compute; reflexivity).
  split; [reflexivity|]. split; [exact Hlimit|]. split; [exact Hindexed|].
  split; [exact Hids|].
  pose proof (X10_range_scan_order (Sample.float_of_int 9) (Sample.float_of_int 5) expr
                Sample.numbers [VStr "n"] 3 ∅ eq_refl Hlimit (or_introl eq_refl) Hindexed)
    as Hrun.
  cbv zeta in Hrun. unfold htPath in Hids.
  change (int_of_float64 (Sample.float_of_int 9)) with 9 in Hrun.
  change (int_of_float64 (Sample.float_of_int 5)) with 5 in Hrun.
  rewrite Hids in Hrun. apply Hrun.
  - intros Hlt. exfalso. lia.
  - intros _. unfold min_int. lia.
Defined.

Section RangeDirection.
Context `{env : GoEnv}.

Lemma rangeIDs_None src htPath k lookupValues :
  rangeIDs src htPath k lookupValues = None <->
  exists v, In v lookupValues /\ hashScan src htPath (StrHash (Sprint (VInt v))) k = None.
Proof.
  induction lookupValues as [|v rest IH]; cbn [rangeIDs In].
  - split; [discriminate|]. intros (v & [] & _).
  - destruct (hashScan src htPath (StrHash (Sprint (VInt v))) k) as [vals|] eqn:Hv.
    + destruct (rangeIDs src htPath k rest) as [ids|].
      * split; [discriminate|]. intros (w & [<-|Hw] & Hnone); [congruence|].
        destruct IH as [_ IH]. discriminate IH. eauto.
      * split; [|reflexivity]. intros _.
        destruct IH as [IH _]. destruct (IH eq_refl) as (w & Hw & Hnone). eauto.
    + split; [|reflexivity]. intros _. exists v. auto.
Qed.

Lemma rangeIDs_elem src htPath k lookupValues ids id :
  rangeIDs src htPath k lookupValues = Some ids ->
  In id ids <->
  exists v vals, In v lookupValues /\
    hashScan src htPath (StrHash (Sprint (VInt v))) k = Some vals /\ In id vals.
Proof.
  revert ids. induction lookupValues as [|v rest IH]; intros ids; cbn [rangeIDs In].
  - intros [= <-]. split; [intros []|]. intros (v & vals & [] & _).
  - destruct (hashScan src htPath (StrHash (Sprint (VInt v))) k) as [vals|] eqn:Hv;
      [|discriminate].
    destruct (rangeIDs src htPath k rest) as [rest_ids|]; [|discriminate].
    intros [= <-]. rewrite in_app_iff, (IH rest_ids eq_refl). split.
    + intros [Hid|(w & wvals & Hw & Hscan & Hid)]; eauto 8.
    + intros (w & wvals & [<-|Hw] & Hscan & Hid).
      * left. congruence.
      * right. eauto 8.
Qed.

(** Two lists of lookup values with the same members are probed alike:
    both scans panic, or they return the same set of identifiers. *)
Lemma rangeIDs_same_values src htPath k l1 l2 :
  (forall v, In v l1 <-> In v l2) ->
  match rangeIDs src htPath k l1, rangeIDs src htPath k l2 with
  | Some ids1, Some ids2 => (list_to_set ids1 : gset Z) = list_to_set ids2
  | None, None => True
  | _, _ => False
  end.
Proof.
  intros Hsame.
  destruct (rangeIDs src htPath k l1) as [ids1|] eqn:H1;
    destruct (rangeIDs src htPath k l2) as [ids2|] eqn:H2.
  - apply set_eq. intros id. rewrite !elem_of_list_to_set, !list_elem_of_In.
    rewrite (rangeIDs_elem _ _ _ _ _ id H1), (rangeIDs_elem _ _ _ _ _ id H2).
    split; intros (v & vals & Hv & Hrest); exists v, vals; (split; [apply Hsame, Hv|exact Hrest]).
  - apply rangeIDs_None in H2 as (v & Hv & Hnone).
    assert (Hcontra : rangeIDs src htPath k l1 = None)
      by (apply rangeIDs_None; exists v; split; [apply Hsame, Hv|exact Hnone]).
    congruence.
  - apply rangeIDs_None in H1 as (v & Hv & Hnone).
    assert (Hcontra : rangeIDs src htPath k l2 = None)
      by (apply rangeIDs_None; exists v; split; [apply Hsame, Hv|exact Hnone]).
    congruence.
  - exact I.
Qed.

(** X11.  Without a limit the direction of a range does not matter.  On
    an indexed path and with both bounds strictly inside the range of
    [int], the node [{int-from: a, int-to: b, in: p}] and the node with the
    bounds exchanged end alike: both panic, or both return the same result
    set. *)
Theorem X11_range_direction (p : list value) (fa fb : float64) (src : Col) (r : gset Z) :
  let a := int_of_float64 fa in
  let b := int_of_float64 fb in
  min_int < a < max_int -> min_int < b < max_int ->
  String.concat "," (List.map Sprint p) ∈ indexPaths src ->
  EvalQuery (rangeNode p fa fb) src r = EvalQuery (rangeNode p fb fa) src r.
Proof.
  intros a b Ha Hb Hindexed. rewrite !EvalQuery_rangeNode. fold a b.
  assert (Hmax : 0 <= max_int) by (unfold max_int; lia).
  rewrite !RangeScan_ordered by (try assumption; lia).
  assert (Hsame : forall v, In v (probedValues a b) <-> In v (probedValues b a)).
  { intros v.
    destruct (probedValues_order a b) as (_ & _ & _ & _ & Hab).
    destruct (probedValues_order b a) as (_ & _ & _ & _ & Hba).
    rewrite Hab, Hba. lia. }
  pose proof (rangeIDs_same_values src (String.concat "," (List.map Sprint p)) 0
                (probedValues a b) (probedValues b a) Hsame) as Hids.
  destruct (rangeIDs _ _ 0 (probedValues a b)) as [ids1|];
    destruct (rangeIDs _ _ 0 (probedValues b a)) as [ids2|]; try contradiction;
    [|reflexivity].
  unfold limited. cbn [Z.ltb Z.compare]. rewrite Hids. reflexivity.
Qed.

End RangeDirection.

(** The ranges 5..9 and 9..5 on the sample collection. *)
Lemma X11_range_direction_witness :
  let p := [VStr "n"] in
  min_int < 5 < max_int /\ min_int < 9 < max_int /\
  (String.concat "," (List.map Sprint p) ∈ indexPaths Sample.numbers) /\
  EvalQuery (rangeNode p (Sample.float_of_int 5) (Sample.float_of_int 9)) Sample.numbers ∅ =
  EvalQuery (rangeNode p (Sample.float_of_int 9) (Sample.float_of_int 5)) Sample.numbers ∅.
Proof.
  intros p.
  assert (H5 : min_int < 5 < max_int) by (unfold min_int, max_int; lia).
  assert (H9 : min_int < 9 < max_int) by (unfold min_int, max_int; lia).
  assert (Hindexed : String.concat "," (List.map Sprint p) ∈ indexPaths Sample.numbers)
    by (cbn; set_solver).
  split; [exact H5|]. split; [exact H9|]. split; [exact Hindexed|].
  exact (X11_range_direction p (Sample.float_of_int 5) (Sample.float_of_int 9)
           Sample.numbers ∅ H5 H9 Hindexed).
Defined.

(** ** Identifiers as strings *)

Lemma digit_of_pretty_N_char (m : N) :
  (m < 10)%N -> digit_of (pretty_N_char m) = Some (Z.of_N m).
Proof.
  intros Hm.
  assert (m = 0 \/ m = 1 \/ m = 2 \/ m = 3 \/ m = 4 \/ m = 5 \/ m = 6 \/ m = 7 \/ m = 8
          \/ m = 9)%N as Hcases by lia.
  repeat (destruct Hcases as [->|Hcases]; [reflexivity|]). subst m. reflexivity.
Qed.

(** The digits [pretty_N_go x s] puts before [s] are decimal digits that
    denote [x]. *)
Lemma pretty_N_go_digits (x : N) (s : string) (acc : Z) :
  all_digits (pretty_N_go x s) = all_digits s /\
  (acc = 0 ->
   foldl (fun a c => 10 * a + default 0 (digit_of c)) acc
         (list_ascii_of_string (pretty_N_go x s)) =
   foldl (fun a c => 10 * a + default 0 (digit_of c)) (Z.of_N x)
         (list_ascii_of_string s)) /\
  (s <> "" \/ (0 < x)%N -> pretty_N_go x s <> "").
Proof.
  revert s. induction (N.lt_wf_0 x) as [x _ IH]; intros s.
  assert (x = 0 \/ 0 < x)%N as [->|Hx] by lia.
  - rewrite pretty_N_go_0. split; [reflexivity|]. split.
    + intros ->. reflexivity.
    + intros [Hs|Hx]; [exact Hs|lia].
  - rewrite pretty_N_go_step by exact Hx.
    pose proof (N.mod_lt x 10 ltac:(lia)) as Hmod.
    destruct (IH (x `div` 10)%N (N.div_lt x 10 Hx eq_refl)
                 (String (pretty_N_char (x `mod` 10)) s)) as (Hall & Hval & Hne).
    split; [|split].
    + rewrite Hall. cbn [all_digits]. rewrite digit_of_pretty_N_char by exact Hmod.
      reflexivity.
    + intros Hacc. rewrite (Hval Hacc). cbn [list_ascii_of_string foldl].
      rewrite digit_of_pretty_N_char by exact Hmod. cbn [default].
      f_equal. rewrite (N.div_mod x 10) at 3 by discriminate.
      rewrite N2Z.inj_add, N2Z.inj_mul. reflexivity.
    + intros _. apply Hne. left. discriminate.
Qed.

Lemma pretty_positive_digits (p : positive) :
  nonempty_digits (pretty p) = true /\ digitsValue (pretty p) = Z.pos p.
Proof.
  unfold pretty, pretty_positive, pretty, pretty_N.
  rewrite decide_False by discriminate.
  destruct (pretty_N_go_digits (N.pos p) "" 0) as (Hall & Hval & Hne).
  split.
  - unfold nonempty_digits. destruct (pretty_N_go (N.pos p) "") eqn:Hs.
    + exfalso. apply Hne; [right; lia|reflexivity].
    + exact Hall.
  - unfold digitsValue. rewrite (Hval eq_refl). reflexivity.
Qed.

Lemma digit_not_sign (c : ascii) (rest : string) :
  all_digits (String c rest) = true ->
  bool_decide (c = "+"%char) = false /\ bool_decide (c = "-"%char) = false.
Proof.
  cbn [all_digits]. intros Hc.
  split; apply bool_decide_eq_false; intros ->; discriminate Hc.
Qed.

Lemma signedDecimal_pretty (z : Z) : signedDecimal (pretty z) = Some z.
Proof.
  destruct z as [|p|p]; [reflexivity|..].
  - change (pretty (Z.pos p)) with (pretty p).
    destruct (pretty_positive_digits p) as [Hne Hval].
    unfold signedDecimal. destruct (pretty p) as [|c rest] eqn:Hs; [discriminate Hne|].
    destruct (digit_not_sign c rest Hne) as [-> ->]. rewrite Hne, Hval. reflexivity.
  - change (pretty (Z.neg p)) with (String "-"%char (pretty p)).
    destruct (pretty_positive_digits p) as [Hne Hval].
    unfold signedDecimal.
    replace (bool_decide ("-"%char = "+"%char)) with false by reflexivity.
    replace (bool_decide ("-"%char = "-"%char)) with true by reflexivity.
    rewrite Hne, Hval. reflexivity.
Qed.

Section IdentifierStrings.
Context `{env : GoEnv}.

(** X12.  Identifiers round-trip through strings.  The decimal string of
    any [int], as [fmt.Sprint] prints it, is accepted by the string node
    and names that very identifier: [ParseInt] returns the integer, and
    evaluating the string adds it, and nothing else, to the result. *)
Theorem X12_identifier_round_trip (z : Z) (src : Col) (r : gset Z) :
  in_int z ->
  ParseInt (Sprint (VInt z)) = Some z /\
  EvalQuery (VStr (Sprint (VInt z))) src r = Returned ({[ z ]} ∪ r) None.
Proof.
  intros Hz. cbn [Sprint].
  assert (Hparse : ParseInt (pretty z) = Some z).
  { rewrite ParseInt_spec, signedDecimal_pretty.
    destruct (decide (in_int z)); [reflexivity|contradiction]. }
  split; [exact Hparse|].
  assert (Hne : pretty z <> "all").
  { intros Hall. rewrite Hall in Hparse. discriminate Hparse. }
  rewrite (EvalQuery_str _ src r Hne), Hparse. reflexivity.
Qed.

End IdentifierStrings.

(** The identifier -17. *)
Lemma X12_identifier_round_trip_witness :
  in_int (-17) /\
  EvalQuery (VStr (Sprint (VInt (-17)))) Sample.numbers ∅ = Returned ({[ -17 ]} ∪ ∅) None.
Proof.
  assert (Hz : in_int (-17)) by (unfold in_int, min_int, max_int; lia).
  split; [exact Hz|].
  exact (proj2 (X12_identifier_round_trip (-17) Sample.numbers ∅ Hz)).
Defined.

(** ** The query of the lookup benchmark *)

Section Benchmark.
Context `{env : GoEnv}.

Lemma int_of_float64_num (z : Z) : in_int z -> int_of_float64 (Sample.float_of_int z) = z.
Proof.
  intros Hz. apply int_of_float64_truncate; [|exact Hz].
  destruct z as [|p|p]; cbn [Sample.float_of_int truncate]; [reflexivity|..].
  - replace (0 <=? 0) with true by reflexivity. f_equal. lia.
  - replace (0 <=? 0) with true by reflexivity. f_equal. lia.
Qed.

(** X13.  What the lookup benchmark asks.  With the path [ints] indexed
    and the two eq nodes finding [S1] and [S2], every query that
    [sampleQuery] can build, evaluated on the empty result the benchmark
    passes, ends with the identifiers found by exactly one of the two eq
    nodes, joined by those of three range probes, [rangeStart],
    [rangeStart + 1] and [rangeStart + 2] in this order; the scan runs
    forward and leaves its loop. *)
Theorem X13_sample_query (rangeStart eq1 eq2 : Z) (src : Col) (S1 S2 : gset Z) :
  0 <= rangeStart < benchSize ->
  "ints" ∈ indexPaths src ->
  succeedsWith src (eqNode [VStr "nested"; VStr "nested"; VStr "int"] (Sample.num eq1)) S1 ->
  succeedsWith src (eqNode [VStr "ints"] (Sample.num eq2)) S2 ->
  EvalQuery (sampleQuery rangeStart eq1 eq2) src ∅ =
    match rangeIDs src "ints" 0 [rangeStart; rangeStart + 1; rangeStart + 2] with
    | Some ids => Returned ((S1 ∖ S2) ∪ (S2 ∖ S1) ∪ list_to_set ids) None
    | None => Aborted
    end.
Proof.
  intros Hstart Hindexed H1 H2. unfold benchSize in Hstart.
  unfold sampleQuery. rewrite EvalQuery_arr. cbn [EvalUnion].
  erewrite EvalQuery_c; [|reflexivity..]. cbn [Complement].
  fold (eqNode [VStr "nested"; VStr "nested"; VStr "int"] (Sample.num eq1)).
  fold (eqNode [VStr "ints"] (Sample.num eq2)).
  rewrite (ComplementLoop_all _ src ∅ [S1; S2]) by (repeat constructor; assumption).
  cbn [foldl].
  change (VObj [("int-from", Sample.num rangeStart); ("int-to", Sample.num (rangeStart + 2));
                ("in", VArr [VStr "ints"])])
    with (rangeNode [VStr "ints"] (Sample.float_of_int rangeStart)
                    (Sample.float_of_int (rangeStart + 2))).
  rewrite EvalQuery_rangeNode.
  assert (Hin1 : in_int rangeStart) by (unfold in_int, min_int, max_int; lia).
  assert (Hin2 : in_int (rangeStart + 2)) by (unfold in_int, min_int, max_int; lia).
  rewrite (int_of_float64_num _ Hin1), (int_of_float64_num _ Hin2).
  rewrite RangeScan_ordered.
  - replace (probedValues rangeStart (rangeStart + 2))
      with [rangeStart; rangeStart + 1; rangeStart + 2].
    + change (String.concat "," (List.map Sprint [VStr "ints"])) with "ints".
      destruct (rangeIDs src "ints" 0 _) as [ids|]; [|reflexivity].
      unfold limited. replace (0 <? 0) with false by reflexivity.
      f_equal. set_solver.
    + unfold probedValues. rewrite decide_True by lia. unfold forwardValues.
      replace (rangeStart + 2 - rangeStart + 1) with 3 by lia.
      rewrite !seqZ_cons by lia. rewrite seqZ_nil by lia.
      repeat f_equal; lia.
  - exact Hindexed.
  - unfold max_int. lia.
  - intros _. unfold max_int. lia.
  - intros Hle. exfalso. lia.
Qed.

End Benchmark.

(** The draws 5, 7 and 3 on [benchDocs]. *)
Lemma X13_sample_query_witness :
  0 <= 5 < benchSize /\
  ("ints" ∈ indexPaths benchDocs) /\
  succeedsWith benchDocs
    (eqNode [VStr "nested"; VStr "nested"; VStr "int"] (Sample.num 7)) {[ 1; 3 ]} /\
  succeedsWith benchDocs (eqNode [VStr "ints"] (Sample.num 3)) {[ 3 ]} /\
  rangeIDs benchDocs "ints" 0 [5; 5 + 1; 5 + 2] = Some [2; 1] /\
  EvalQuery (sampleQuery 5 7 3) benchDocs ∅ =
    Returned (({[ 1; 3 ]} ∖ {[ 3 ]}) ∪ ({[ 3 ]} ∖ {[ 1; 3 ]}) ∪ list_to_set [2; 1]) None.
Proof.
  assert (Hstart : 0 <= 5 < benchSize) by (unfold benchSize; lia).
  assert (Hindexed : "ints" ∈ indexPaths benchDocs) by (cbn; set_solver).
  assert (H1 : succeedsWith benchDocs
                 (eqNode [VStr "nested"; VStr "nested"; VStr "int"] (Sample.num 7)) {[ 1; 3 ]})
    by (vm_compute; reflexivity).
  assert (H2 : succeedsWith benchDocs (eqNode [VStr "ints"] (Sample.num 3)) {[ 3 ]})
    by (vm_compute; reflexivity).
  assert (Hids : rangeIDs benchDocs "ints" 0 [5; 5 + 1; 5 + 2] = Some [2; 1])
    by (vm_compute; reflexivity).
  split; [exact Hstart|]. split; [exact Hindexed|]. split; [exact H1|].
  split; [exact H2|]. split; [exact Hids|].
  pose proof (X13_sample_query 5 7 3 benchDocs {[ 1; 3 ]} {[ 3 ]} Hstart Hindexed H1 H2)
    as Hrun.
  rewrite Hids in Hrun. exact Hrun.
Defined.
